(** * youdb: hashmaps and sorted sets on an ordered bucket store

    A shallow embedding of [youdb.go].  The package wraps the Bolt key/value
    engine; the engine is modelled by what its API documents: a store is a
    finite map from bucket names to buckets, a bucket a finite map from keys
    to values that a cursor walks in [bytes.Compare] order, and a write
    transaction either commits the closure's result or rolls everything back.
    Disk and locking failures of the engine are outside the model. *)

From Stdlib Require Import ZArith Strings.Byte String.
From stdpp Require Import gmap strings list fin_maps sorting.

Open Scope Z_scope.

(** ** Byte slices *)

Abbreviation bytes := (list byte).

#[global] Instance byte_eq_dec : EqDecision byte := Byte.byte_eq_dec.
#[global] Instance byte_countable : Countable byte :=
  inj_countable Byte.to_N Byte.of_N Byte.of_to_N.

(** [uint64(b)] for a byte [b]. *)
Definition uint8 (b : byte) : Z := Z.of_N (Byte.to_N b).

(** The Go conversion [byte(x)] of an unsigned integer: the low eight bits. *)
Definition to_byte (x : Z) : byte :=
  default x00 (Byte.of_N (Z.to_N (x mod 256))).

(** Wrap-around of [uint64] arithmetic. *)
Definition u64 (x : Z) : Z := x mod 2 ^ 64.

(** [bytes.Compare]: lexicographic on unsigned bytes; the results -1, 0, 1
    are [Lt], [Eq], [Gt]. *)
Fixpoint bytes_Compare (a b : bytes) : comparison :=
  match a, b with
  | [], [] => Eq
  | [], _ :: _ => Lt
  | _ :: _, [] => Gt
  | x :: a', y :: b' =>
      match uint8 x ?= uint8 y with
      | Eq => bytes_Compare a' b'
      | c => c
      end
  end.

(** A slice that may be [nil] is an [option]; [bytes.Equal] treats [nil] as
    the empty slice. *)
Definition bytes_Equal (a b : option bytes) : bool :=
  bool_decide (default [] a = default [] b).

(** ** Results of Go calls *)

Inductive error : Type :=
  | err_nil
  | errors_New (msg : string).

(** A call either returns or panics. *)
Inductive outcome (A : Type) : Type :=
  | Returns (a : A)
  | Panics.
Arguments Returns {A} a.
Arguments Panics {A}.

Definition outcome_bind {A B} (m : outcome A) (f : A → outcome B) : outcome B :=
  match m with
  | Returns a => f a
  | Panics => Panics
  end.

(** [err.Error()]: a method call on a nil interface value panics. *)
Definition Error (e : error) : outcome string :=
  match e with
  | err_nil => Panics
  | errors_New msg => Returns msg
  end.

(** ** Constants of the package *)

Definition replyOK : string := "ok".
Definition replyNotFound : string := "not_found".
Definition replyError : string := "error".
Definition replyClientError : string := "client_error".
Definition bucketNotFound : string := "bucket_not_found".
Definition keyNotFound : string := "key_not_found".
Definition scoreMin : Z := 0.
Definition scoreMax : Z := 18446744073709551615.

Definition hashPrefix : bytes := [x1e].
Definition zetKeyPrefix : bytes := [x1f].
Definition zetScorePrefix : bytes := [x1d].

Record Reply : Type := mkReply { State : string; Data : list bytes }.

Record Entry : Type := mkEntry { Key : bytes; Value : bytes }.

(** ** Byte codec *)

(** [Bconcat]: the slices copied one after the other. *)
Definition Bconcat (slices : list bytes) : bytes := concat slices.

(** [S2b] and [B2s] reinterpret the same bytes. *)
Definition S2b (s : string) : bytes := list_byte_of_string s.
Definition B2s (b : bytes) : string := string_of_list_byte b.

(** [binary.BigEndian.PutUint64] into a fresh 8-byte slice. *)
Definition I2b (v : Z) : bytes :=
  [ to_byte (Z.shiftr v 56); to_byte (Z.shiftr v 48);
    to_byte (Z.shiftr v 40); to_byte (Z.shiftr v 32);
    to_byte (Z.shiftr v 24); to_byte (Z.shiftr v 16);
    to_byte (Z.shiftr v 8); to_byte v ].

(** [binary.BigEndian.Uint64]: reads [b[7]] first (bounds check), so a slice
    shorter than eight bytes panics. *)
Definition BigEndian_Uint64 (b : bytes) : outcome Z :=
  match b with
  | b0 :: b1 :: b2 :: b3 :: b4 :: b5 :: b6 :: b7 :: _ =>
      Returns
        (Z.lor (Z.lor (Z.lor (Z.lor (Z.lor (Z.lor (Z.lor
           (uint8 b7)
           (Z.shiftl (uint8 b6) 8))
           (Z.shiftl (uint8 b5) 16))
           (Z.shiftl (uint8 b4) 24))
           (Z.shiftl (uint8 b3) 32))
           (Z.shiftl (uint8 b2) 40))
           (Z.shiftl (uint8 b1) 48))
           (Z.shiftl (uint8 b0) 56))
  | _ => Panics
  end.

Definition B2i (v : bytes) : outcome Z := BigEndian_Uint64 v.

(** ** The Bolt engine *)

Abbreviation bucket := (gmap bytes bytes).
Abbreviation store := (gmap bytes bucket).

Definition MaxKeySize : Z := 32768.
Definition MaxValueSize : Z := 2147483646.

(** What the closure of a transaction hands back: a new transaction state,
    an error, or a panic. *)
Inductive txres (A : Type) : Type :=
  | TxOk (a : A)
  | TxErr (msg : string)
  | TxPanic.
Arguments TxOk {A} a.
Arguments TxErr {A} msg.
Arguments TxPanic {A}.

#[global] Instance txres_bind : MBind txres := λ A B f m,
  match m with
  | TxOk a => f a
  | TxErr msg => TxErr msg
  | TxPanic => TxPanic
  end.

(** [tx.CreateBucketIfNotExists]. *)
Definition tx_CreateBucketIfNotExists (name : bytes) (tx : store) : txres store :=
  match name with
  | [] => TxErr "bucket name required"
  | _ :: _ =>
      match tx !! name with
      | Some _ => TxOk tx
      | None => TxOk (<[name := ∅]> tx)
      end
  end.

(** [tx.Bucket]: [nil] when the bucket is absent. *)
Definition tx_Bucket (name : bytes) (tx : store) : option bucket := tx !! name.

(** [tx.DeleteBucket]: an error when the bucket is absent. *)
Definition tx_DeleteBucket (name : bytes) (tx : store) : txres store :=
  match tx !! name with
  | Some _ => TxOk (delete name tx)
  | None => TxErr "bucket not found"
  end.

(** A bucket handle is the bucket's name inside the transaction.
    [b.Get]: [nil] when the key is absent. *)
Definition Bucket_Get (b key : bytes) (tx : store) : option bytes :=
  tx !! b ≫= (λ m : bucket, m !! key).

(** [b.Put]. *)
Definition Bucket_Put (b key value : bytes) (tx : store) : txres store :=
  if decide (length key = 0%nat) then TxErr "key required"
  else if decide (MaxKeySize < Z.of_nat (length key)) then TxErr "key too large"
  else if decide (MaxValueSize < Z.of_nat (length value)) then TxErr "value too large"
  else TxOk (alter (λ m : bucket, <[key := value]> m) b tx).

(** [b.Delete]: deleting an absent key is not an error. *)
Definition Bucket_Delete (b key : bytes) (tx : store) : txres store :=
  TxOk (alter (λ m : bucket, delete key m) b tx).

(** [db.Update] for a closure that also assigns a captured variable of type
    [R]: commit on a nil error, roll back on an error or a panic. *)
Definition Update_with {R : Type} (fn : store → R * txres store) (db : store)
    : store * outcome (R * error) :=
  match fn db with
  | (r, TxOk tx) => (tx, Returns (r, err_nil))
  | (r, TxErr msg) => (db, Returns (r, errors_New msg))
  | (_, TxPanic) => (db, Panics)
  end.

(** [db.Update] for a closure without captured results. *)
Definition Update (fn : store → txres store) (db : store) : store * outcome error :=
  match fn db with
  | TxOk tx => (tx, Returns err_nil)
  | TxErr msg => (db, Returns (errors_New msg))
  | TxPanic => (db, Panics)
  end.

(** [db.View]: the closure reads a snapshot. *)
Definition View {A : Type} (fn : store → A) (db : store) : A := fn db.

(** *** Cursors *)

Definition key_le (x y : bytes * bytes) : Prop :=
  bytes_Compare x.1 y.1 ≠ Gt.

#[global] Instance key_le_dec : RelDecision key_le :=
  λ x y, decide (bytes_Compare x.1 y.1 ≠ Gt).

(** The pairs of a bucket in key order. *)
Definition Bucket_entries (b : bucket) : list (bytes * bytes) :=
  merge_sort key_le (map_to_list b).

(** A cursor: the pairs before the position, nearest first, and the pairs
    from the position on.  A cursor past the end yields a nil key. *)
Record Cursor : Type := mkCursor {
  c_before : list (bytes * bytes);
  c_from : list (bytes * bytes)
}.

Fixpoint seek_from (seek : bytes) (before es : list (bytes * bytes)) : Cursor :=
  match es with
  | [] => mkCursor before []
  | e :: es' =>
      if decide (bytes_Compare e.1 seek = Lt)
      then seek_from seek (e :: before) es'
      else mkCursor before es
  end.

(** [c.Seek]: the first key not below [seek]. *)
Definition Cursor_Seek (seek : bytes) (b : bucket) : Cursor :=
  seek_from seek [] (Bucket_entries b).

(** [c.Last]. *)
Definition Cursor_Last (b : bucket) : Cursor :=
  match reverse (Bucket_entries b) with
  | [] => mkCursor [] []
  | e :: before => mkCursor before [e]
  end.

(** The pairs a loop [for k != nil; k = c.Next()] visits from a position. *)
Definition Cursor_Next_all (c : Cursor) : list (bytes * bytes) := c_from c.

(** The pairs a loop [for k != nil; k = c.Prev()] visits from a position. *)
Definition Cursor_Prev_all (c : Cursor) : list (bytes * bytes) :=
  match c_from c with
  | [] => []
  | e :: _ => e :: c_before c
  end.

(** ** Hashmap operations *)

Definition hashBucket (name : string) : bytes := Bconcat [hashPrefix; S2b name].
Definition zetKeyBucket (name : string) : bytes := Bconcat [zetKeyPrefix; S2b name].
Definition zetScoreBucket (name : string) : bytes := Bconcat [zetScorePrefix; S2b name].

Definition Hset (name : string) (key val : bytes) (db : store) : store * outcome error :=
  let bucketName := hashBucket name in
  Update (λ tx,
    tx ← tx_CreateBucketIfNotExists bucketName tx;
    Bucket_Put bucketName key val tx) db.

(** The loop [for i := 0; i < len(kvs)-1; i += 2] of [Hmset]. *)
Fixpoint Hmset_loop (b : bytes) (kvs : list bytes) (tx : store) : txres store :=
  match kvs with
  | k :: v :: rest => tx ← Bucket_Put b k v tx; Hmset_loop b rest tx
  | _ => TxOk tx
  end.

Definition Hmset (name : string) (kvs : list bytes) (db : store) : store * outcome error :=
  if decide (length kvs = 0%nat ∨ (length kvs mod 2)%nat ≠ 0%nat)
  then (db, Returns (errors_New "kvs len must is an even number"))
  else
    let bucketName := hashBucket name in
    Update (λ tx,
      tx ← tx_CreateBucketIfNotExists bucketName tx;
      Hmset_loop bucketName kvs tx) db.

(** The guard both increments place before the addition:
    [if step > 0 { if (scoreMax - step) < oldNum {...} }
     else { if (oldNum + step) < scoreMin {...} }], in [uint64]. *)
Definition incr_overflows (step oldNum : Z) : bool :=
  if decide (0 < step)
  then bool_decide (u64 (scoreMax - step) < oldNum)
  else bool_decide (u64 (oldNum + step) < scoreMin).

(** The closure of [Hincr]; the first component is the captured [i]. *)
Definition Hincr_tx (bucketName key : bytes) (step : Z) (tx : store) : Z * txres store :=
  match tx_CreateBucketIfNotExists bucketName tx with
  | TxErr msg => (0, TxErr msg)
  | TxPanic => (0, TxPanic)
  | TxOk tx =>
      let v := Bucket_Get bucketName key tx in
      match match v with Some v => B2i v | None => Returns 0 end with
      | Panics => (0, TxPanic)
      | Returns oldNum =>
          if incr_overflows step oldNum then (0, TxErr "overflow number")
          else
            let oldNum := u64 (oldNum + step) in
            match Bucket_Put bucketName key (I2b oldNum) tx with
            | TxOk tx => (oldNum, TxOk tx)
            | TxErr msg => (0, TxErr msg)
            | TxPanic => (0, TxPanic)
            end
      end
  end.

Definition Hincr (name : string) (key : bytes) (step : Z) (db : store)
    : store * outcome (Z * error) :=
  Update_with (Hincr_tx (hashBucket name) key step) db.

Definition Hdel (name : string) (key : bytes) (db : store) : store * outcome error :=
  let bucketName := hashBucket name in
  Update (λ tx,
    match tx_Bucket bucketName tx with
    | Some _ => Bucket_Delete bucketName key tx
    | None => TxOk tx
    end) db.

Definition HdelBucket (name : string) (db : store) : store * outcome error :=
  let bucketName := hashBucket name in
  Update (λ tx, tx_DeleteBucket bucketName tx) db.

(** The tail shared by the queries: [if err != nil { r.State = err.Error() }]. *)
Definition reply_of (res : Reply * error) : outcome Reply :=
  match res with
  | (r, err_nil) => Returns r
  | (r, err) => outcome_bind (Error err) (λ s, Returns (mkReply s (Data r)))
  end.

Definition Hget (name : string) (key : bytes) (db : store) : outcome Reply :=
  let r := mkReply replyError [] in
  let bucketName := hashBucket name in
  reply_of (View (λ tx,
    match tx_Bucket bucketName tx with
    | None => (r, errors_New bucketNotFound)
    | Some b =>
        match b !! key with
        | None => (r, errors_New keyNotFound)
        | Some v => (mkReply replyOK (Data r ++ [v]), err_nil)
        end
    end) db).

(** The loop of [Hscan] over the pairs the cursor yields. *)
Fixpoint Hscan_loop (keyStart : bytes) (limit : Z) (items : list (bytes * bytes))
    (n : Z) (r : Reply) : Reply :=
  match items with
  | [] => r
  | (k, v) :: rest =>
      if decide (bytes_Compare k keyStart = Gt) then
        let n := n + 1 in
        let r := mkReply replyOK (Data r ++ [k; v]) in
        if decide (n = limit) then r else Hscan_loop keyStart limit rest n r
      else Hscan_loop keyStart limit rest n r
  end.

Definition Hscan (name : string) (keyStart : bytes) (limit : Z) (db : store)
    : outcome Reply :=
  let r := mkReply replyError [] in
  let bucketName := hashBucket name in
  reply_of (View (λ tx,
    match tx_Bucket bucketName tx with
    | None => (r, errors_New bucketNotFound)
    | Some b =>
        (Hscan_loop keyStart limit
           (Cursor_Next_all (Cursor_Seek keyStart b)) 0 r, err_nil)
    end) db).

(** The loop of [Hrscan]; it stops on [n >= limit]. *)
Fixpoint Hrscan_loop (startKey : bytes) (limit : Z) (items : list (bytes * bytes))
    (n : Z) (r : Reply) : Reply :=
  match items with
  | [] => r
  | (k, v) :: rest =>
      if decide (bytes_Compare k startKey = Lt) then
        let n := n + 1 in
        let r := mkReply replyOK (Data r ++ [k; v]) in
        if decide (limit ≤ n) then r else Hrscan_loop startKey limit rest n r
      else Hrscan_loop startKey limit rest n r
  end.

(** [Hrscan]: the closing test is [if err == nil { r.State = err.Error() }]. *)
Definition Hrscan (name : string) (keyStart : bytes) (limit : Z) (db : store)
    : outcome Reply :=
  let r := mkReply replyError [] in
  let bucketName := hashBucket name in
  let res := View (λ tx,
    match tx_Bucket bucketName tx with
    | None => (r, errors_New bucketNotFound)
    | Some b =>
        let startKey := if decide (0 < length keyStart)%nat then keyStart else [xff] in
        let c := if decide (0 < length keyStart)%nat
                 then Cursor_Seek startKey b else Cursor_Last b in
        (Hrscan_loop startKey limit (Cursor_Prev_all c) 0 r, err_nil)
    end) db in
  match res with
  | (r, err_nil) => outcome_bind (Error err_nil) (λ s, Returns (mkReply s (Data r)))
  | (r, _) => Returns r
  end.

(** ** Sorted-set operations *)

(** The update [Zset] runs once and [Zmset] runs for every pair: compare the
    stored score of [key] with [score], and on a difference put the new
    composite key, put the new score, and delete the old composite key. *)
Definition zset_pair (keyBucket scoreBucket key score : bytes) (tx : store)
    : txres store :=
  let newKey := Bconcat [score; key] in
  let oldScore := Bucket_Get scoreBucket key tx in
  if negb (bytes_Equal oldScore (Some score)) then
    tx ← Bucket_Put keyBucket newKey [] tx;
    tx ← Bucket_Put scoreBucket key score tx;
    match oldScore with
    | Some old => Bucket_Delete keyBucket (Bconcat [old; key]) tx
    | None => TxOk tx
    end
  else TxOk tx.

Definition Zset (name : string) (key : bytes) (val : Z) (db : store)
    : store * outcome error :=
  let score := I2b val in
  let keyBucket := zetKeyBucket name in
  let scoreBucket := zetScoreBucket name in
  Update (λ tx,
    tx ← tx_CreateBucketIfNotExists keyBucket tx;
    tx ← tx_CreateBucketIfNotExists scoreBucket tx;
    zset_pair keyBucket scoreBucket key score tx) db.

(** The loop [for i := 0; i < len(kvs)-1; i += 2] of [Zmset]. *)
Fixpoint Zmset_loop (keyBucket scoreBucket : bytes) (kvs : list bytes) (tx : store)
    : txres store :=
  match kvs with
  | key :: score :: rest =>
      tx ← zset_pair keyBucket scoreBucket key score tx;
      Zmset_loop keyBucket scoreBucket rest tx
  | _ => TxOk tx
  end.

Definition Zmset (name : string) (kvs : list bytes) (db : store)
    : store * outcome error :=
  if decide (length kvs = 0%nat ∨ (length kvs mod 2)%nat ≠ 0%nat)
  then (db, Returns (errors_New "kvs len must is an even number"))
  else
    let keyBucket := zetKeyBucket name in
    let scoreBucket := zetScoreBucket name in
    Update (λ tx,
      tx ← tx_CreateBucketIfNotExists keyBucket tx;
      tx ← tx_CreateBucketIfNotExists scoreBucket tx;
      Zmset_loop keyBucket scoreBucket kvs tx) db.

(** The closure of [Zincr]; the first component is the captured [score]. *)
Definition Zincr_tx (keyBucket scoreBucket key : bytes) (step : Z) (tx : store)
    : Z * txres store :=
  match tx_CreateBucketIfNotExists keyBucket tx
        ≫= tx_CreateBucketIfNotExists scoreBucket with
  | TxErr msg => (0, TxErr msg)
  | TxPanic => (0, TxPanic)
  | TxOk tx =>
      let vOld := Bucket_Get scoreBucket key tx in
      match match vOld with Some v => B2i v | None => Returns 0 end with
      | Panics => (0, TxPanic)
      | Returns score =>
          if incr_overflows step score then (score, TxErr "overflow number")
          else
            let score := u64 (score + step) in
            let newScoreB := I2b score in
            let newKey := Bconcat [newScoreB; key] in
            (score,
             tx ← Bucket_Put keyBucket newKey [] tx;
             tx ← Bucket_Put scoreBucket key newScoreB tx;
             match vOld with
             | Some old => Bucket_Delete keyBucket (Bconcat [old; key]) tx
             | None => TxOk tx
             end)
      end
  end.

Definition Zincr (name : string) (key : bytes) (step : Z) (db : store)
    : store * outcome (Z * error) :=
  Update_with (Zincr_tx (zetKeyBucket name) (zetScoreBucket name) key step) db.

Definition Zdel (name : string) (key : bytes) (db : store) : store * outcome error :=
  let keyBucket := zetKeyBucket name in
  let scoreBucket := zetScoreBucket name in
  Update (λ tx,
    match tx_Bucket keyBucket tx with
    | None => TxOk tx
    | Some _ =>
        match tx_Bucket scoreBucket tx with
        | None => TxOk tx
        | Some _ =>
            match Bucket_Get scoreBucket key tx with
            | Some oldScore =>
                tx ← Bucket_Delete keyBucket (Bconcat [oldScore; key]) tx;
                Bucket_Delete scoreBucket key tx
            | None => TxOk tx
            end
        end
    end) db.

(** The loop of [Zscan].  [k[8:]] panics on a key shorter than eight bytes. *)
Fixpoint Zscan_loop (startScoreKeyB : bytes) (limit : Z)
    (items : list (bytes * bytes)) (n : Z) (r : Reply) : outcome Reply :=
  match items with
  | [] => Returns r
  | (k, _) :: rest =>
      if decide (bytes_Compare k startScoreKeyB = Gt) then
        let n := n + 1 in
        if decide (length k < 8)%nat then Panics
        else
          let r := mkReply replyOK (Data r ++ [drop 8 k; take 8 k]) in
          if decide (n = limit) then Returns r
          else Zscan_loop startScoreKeyB limit rest n r
      else Zscan_loop startScoreKeyB limit rest n r
  end.

Definition Zscan (name : string) (keyStart scoreStart : bytes) (limit : Z)
    (db : store) : outcome Reply :=
  let r := mkReply replyError [] in
  let keyBucket := zetKeyBucket name in
  let scoreStartB :=
    if decide (0 < length scoreStart)%nat then scoreStart else I2b scoreMin in
  let startScoreKeyB := Bconcat [scoreStartB; keyStart] in
  outcome_bind
    (View (λ tx,
       match tx_Bucket keyBucket tx with
       | None => Returns (r, errors_New bucketNotFound)
       | Some b =>
           outcome_bind
             (Zscan_loop startScoreKeyB limit
                (Cursor_Next_all (Cursor_Seek scoreStartB b)) 0 r)
             (λ r, Returns (r, err_nil))
       end) db)
    reply_of.

(** The loop of [Zrscan]. *)
Fixpoint Zrscan_loop (startScoreKeyB : bytes) (limit : Z)
    (items : list (bytes * bytes)) (n : Z) (r : Reply) : outcome Reply :=
  match items with
  | [] => Returns r
  | (k, _) :: rest =>
      if decide (bytes_Compare k startScoreKeyB = Lt) then
        let n := n + 1 in
        if decide (length k < 8)%nat then Panics
        else
          let r := mkReply replyOK (Data r ++ [drop 8 k; take 8 k]) in
          if decide (n = limit) then Returns r
          else Zrscan_loop startScoreKeyB limit rest n r
      else Zrscan_loop startScoreKeyB limit rest n r
  end.

Definition Zrscan (name : string) (keyStart scoreStart : bytes) (limit : Z)
    (db : store) : outcome Reply :=
  let r := mkReply replyError [] in
  let keyBucket := zetKeyBucket name in
  let startKey := if decide (0 < length keyStart)%nat then keyStart else [xff] in
  let scoreStartB :=
    if decide (0 < length scoreStart)%nat then scoreStart else I2b scoreMax in
  let startScoreKeyB := Bconcat [scoreStartB; startKey] in
  outcome_bind
    (View (λ tx,
       match tx_Bucket keyBucket tx with
       | None => Returns (r, errors_New bucketNotFound)
       | Some b =>
           let c := if decide (0 < length scoreStart)%nat
                    then Cursor_Seek scoreStartB b else Cursor_Last b in
           outcome_bind
             (Zrscan_loop startScoreKeyB limit (Cursor_Prev_all c) 0 r)
             (λ r, Returns (r, err_nil))
       end) db)
    reply_of.

(** ** Reply decoders *)

Definition Reply_String (r : Reply) : string :=
  match Data r with
  | d :: _ => B2s d
  | [] => ""
  end.

Definition Reply_Uint64 (r : Reply) : outcome Z :=
  match Data r with
  | [] => Returns 0
  | d :: _ => if decide (length d < 8)%nat then Returns 0 else BigEndian_Uint64 d
  end.

(** [int64(x)] of a [uint64]: two's complement. *)
Definition to_int64 (x : Z) : Z := if decide (x < 2 ^ 63) then x else x - 2 ^ 64.

Definition Reply_Int (r : Reply) : outcome Z :=
  outcome_bind (Reply_Uint64 r) (λ x, Returns (to_int64 x)).

Definition Reply_Int64 (r : Reply) : outcome Z :=
  if decide (length (Data r) < 1)%nat then Returns 0
  else outcome_bind (Reply_Uint64 r) (λ x, Returns (to_int64 x)).

Definition Reply_Uint (r : Reply) : outcome Z := Reply_Uint64 r.

(** The loop [for i := 0; i < len(r.Data)-1; i += 2] of [List] and [Dict]. *)
Fixpoint List_loop (data : list bytes) : list Entry :=
  match data with
  | k :: v :: rest => mkEntry k v :: List_loop rest
  | _ => []
  end.

Definition Reply_List (r : Reply) : list Entry := List_loop (Data r).

Fixpoint Dict_loop (data : list bytes) (dict : gmap string bytes) : gmap string bytes :=
  match data with
  | k :: v :: rest => Dict_loop rest (<[B2s k := v]> dict)
  | _ => dict
  end.

Definition Reply_Dict (r : Reply) : gmap string bytes := Dict_loop (Data r) ∅.

(** [Reply.JSON] indexes [r.Data[0]] without a length test; [json.Unmarshal]
    is the standard library's and stays abstract. *)
Definition Reply_JSON (json_Unmarshal : bytes → error) (r : Reply) : outcome error :=
  match Data r with
  | [] => Panics
  | d :: _ => Returns (json_Unmarshal d)
  end.

(** [bs.Uint64]: the guarded sibling of [B2i]. *)
Definition bs_Uint64 (r : bytes) : outcome Z :=
  if decide (length r < 8)%nat then Returns 0 else BigEndian_Uint64 r.

(** ** Sequences of sorted-set calls *)

Inductive zcall : Type :=
  | CallZset (name : string) (key : bytes) (val : Z)
  | CallZmset (name : string) (kvs : list bytes)
  | CallZincr (name : string) (key : bytes) (step : Z)
  | CallZdel (name : string) (key : bytes).

(** The store a call leaves behind. *)
Definition zcall_run (db : store) (c : zcall) : store :=
  match c with
  | CallZset name key val => (Zset name key val db).1
  | CallZmset name kvs => (Zmset name kvs db).1
  | CallZincr name key step => (Zincr name key step db).1
  | CallZdel name key => (Zdel name key db).1
  end.

Definition zcalls_run (cs : list zcall) (db : store) : store :=
  foldl zcall_run db cs.

(** The scores of an argument list [key, score, key, score, ...]. *)
Fixpoint kvs_scores (kvs : list bytes) : list bytes :=
  match kvs with
  | _ :: score :: rest => score :: kvs_scores rest
  | _ => []
  end.

(** Calls whose scores are 8-byte encodings and whose increments move the
    score: [uint64] arguments are in range, the raw scores handed to [Zmset]
    are eight bytes long, and the step of [Zincr] is not zero. *)
Definition zcall_ok (c : zcall) : Prop :=
  match c with
  | CallZset _ _ val => 0 ≤ val < 2 ^ 64
  | CallZmset _ kvs => Forall (λ s, length s = 8%nat) (kvs_scores kvs)
  | CallZincr _ _ step => 0 < step < 2 ^ 64
  | CallZdel _ _ => True
  end.

(** The contents of a bucket, empty when the bucket is absent. *)
Definition bucket_of (db : store) (b : bytes) : bucket := default ∅ (db !! b).

(** The two index namespaces of a sorted set agree: every member with its
    score has its composite key and no composite key under another 8-byte
    score, and every composite key comes from a member's score. *)
Definition ZConsistent (db : store) (name : string) : Prop :=
  let zkey := bucket_of db (zetKeyBucket name) in
  let zscore := bucket_of db (zetScoreBucket name) in
  (∀ m s, zscore !! m = Some s →
     zkey !! (s ++ m) = Some [] ∧
     ∀ s', length s' = 8%nat → is_Some (zkey !! (s' ++ m)) → s' = s) ∧
  (∀ k v, zkey !! k = Some v →
     ∃ s m, k = s ++ m ∧ length s = 8%nat ∧ zscore !! m = Some s).

(** Number of composite keys of a sorted set. *)
Definition Zcount (db : store) (name : string) : nat :=
  size (bucket_of db (zetKeyBucket name)).

(** Ascending (score, member bytes) order of two scanned pairs. *)
Definition entry_lt (e1 e2 : Entry) : Prop :=
  ∃ s1 s2, B2i (Value e1) = Returns s1 ∧ B2i (Value e2) = Returns s2 ∧
    (s1 < s2 ∨ (s1 = s2 ∧ bytes_Compare (Key e1) (Key e2) = Lt)).

(** No member that starts with byte 255 carries the largest score. *)
Definition below_reverse_sentinel (db : store) (name : string) : Prop :=
  ∀ m s, bucket_of db (zetScoreBucket name) !! m = Some s →
    ¬ (B2i s = Returns scoreMax ∧ head m = Some xff).

(** The invariant the calls maintain on the two buckets of a sorted set:
    every member is non-empty and has an 8-byte score whose composite key is
    present, and every composite key splits into the score of its member. *)
Definition ZInvB (zkey zscore : bucket) : Prop :=
  (∀ m s, zscore !! m = Some s →
     length s = 8%nat ∧ m ≠ [] ∧ zkey !! (s ++ m) = Some []) ∧
  (∀ k v, zkey !! k = Some v →
     ∃ s m, k = s ++ m ∧ length s = 8%nat ∧ zscore !! m = Some s).

Definition ZInv (db : store) (name : string) : Prop :=
  ZInvB (bucket_of db (zetKeyBucket name)) (bucket_of db (zetScoreBucket name)).

(** The buckets outside a sorted set keep their contents. *)
Definition zframe (kb sb : bytes) (tx tx' : store) : Prop :=
  ∀ b, b ≠ kb → b ≠ sb → bucket_of tx' b = bucket_of tx b.

(** Both buckets of a sorted set exist in the transaction and satisfy the
    invariant. *)
Definition zstate (kb sb : bytes) (tx : store) : Prop :=
  is_Some (tx !! kb) ∧ is_Some (tx !! sb) ∧
  ZInvB (bucket_of tx kb) (bucket_of tx sb).

Definition key_lt (x y : bytes * bytes) : Prop :=
  bytes_Compare x.1 y.1 = Lt.

(** What the scans of a sorted set append for a composite key [k]:
    [k[8:]] and [k[0:8]], and the pair [Reply.List] reads back. *)
Definition split_data (e : bytes * bytes) : list bytes := [drop 8 e.1; take 8 e.1].
Definition split_entry (e : bytes * bytes) : Entry :=
  mkEntry (drop 8 e.1) (take 8 e.1).

(** ** Further operations of the package *)

(** The loop [for _, key := range keys] of [Hmget] and [Zmget]. *)
Fixpoint mget_loop (b : bucket) (keys : list bytes) (r : Reply) : Reply :=
  match keys with
  | [] => r
  | key :: rest =>
      match b !! key with
      | Some v => mget_loop b rest (mkReply replyOK (Data r ++ [key; v]))
      | None => mget_loop b rest r
      end
  end.

Definition Hmget (name : string) (keys : list bytes) (db : store) : outcome Reply :=
  let r := mkReply replyError [] in
  let bucketName := hashBucket name in
  reply_of (View (λ tx,
    match tx_Bucket bucketName tx with
    | None => (r, errors_New bucketNotFound)
    | Some b => (mget_loop b keys r, err_nil)
    end) db).

Definition ZdelBucket (name : string) (db : store) : store * outcome error :=
  let keyBucket := zetKeyBucket name in
  let scoreBucket := zetScoreBucket name in
  Update (λ tx,
    tx ← tx_DeleteBucket keyBucket tx;
    tx_DeleteBucket scoreBucket tx) db.

Definition Zget (name : string) (key : bytes) (db : store) : outcome Reply :=
  let r := mkReply replyError [] in
  let scoreBucket := zetScoreBucket name in
  reply_of (View (λ tx,
    match tx_Bucket scoreBucket tx with
    | None => (r, errors_New bucketNotFound)
    | Some b =>
        match b !! key with
        | Some v => (mkReply replyOK (Data r ++ [v]), err_nil)
        | None => (r, errors_New keyNotFound)
        end
    end) db).

Definition Zmget (name : string) (keys : list bytes) (db : store) : outcome Reply :=
  let r := mkReply replyError [] in
  let scoreBucket := zetScoreBucket name in
  reply_of (View (λ tx,
    match tx_Bucket scoreBucket tx with
    | None => (r, errors_New bucketNotFound)
    | Some b => (mget_loop b keys r, err_nil)
    end) db).

(** ** Notions used to state the behaviour of the operations *)

(** The first [limit] elements for a positive [limit], everything
    otherwise: a loop that stops on [n == limit] never stops for
    [limit <= 0]. *)
Definition scan_take {A : Type} (limit : Z) (l : list A) : list A :=
  if decide (0 < limit) then take (Z.to_nat limit) l else l.

(** What the hashmap scans and the multi-gets append for a pair. *)
Definition kv_data (e : bytes * bytes) : list bytes := [e.1; e.2].

(** The pairs a multi-get finds, in the order of the request. *)
Definition mget_found (b : bucket) (keys : list bytes) : list (bytes * bytes) :=
  omap (λ k, (λ v, (k, v)) <$> b !! k) keys.

(** [Hset] for every pair of an argument list, one call after the other. *)
Fixpoint Hset_each (name : string) (kvs : list bytes) (db : store) : store :=
  match kvs with
  | k :: v :: rest => Hset_each name rest (Hset name k v db).1
  | _ => db
  end.

(** The keys of an argument list [key, value, key, value, ...]. *)
Fixpoint kvs_keys (kvs : list bytes) : list bytes :=
  match kvs with
  | k :: _ :: rest => k :: kvs_keys rest
  | _ => []
  end.

(** The last score an argument list [key, score, key, score, ...] gives
    for a key. *)
Fixpoint kvs_last (k : bytes) (kvs : list bytes) : option bytes :=
  match kvs with
  | key :: score :: rest =>
      match kvs_last k rest with
      | Some s => Some s
      | None => if decide (key = k) then Some score else None
      end
  | _ => None
  end.

(** The store agrees with [db] on every bucket outside [bs]. *)
Definition only_touches (bs : list bytes) (db db' : store) : Prop :=
  ∀ b, b ∉ bs → db' !! b = db !! b.

(** The big-endian value of a byte string. *)
Definition be_val (l : bytes) : Z :=
  foldl (λ acc b, acc * 256 + uint8 b) 0 l.

(* ================================================================== *)
(** * Properties *)

(** ** Bytes and the score codec *)

Lemma uint8_range (b : byte) : 0 ≤ uint8 b < 256.
Proof.
  unfold uint8. pose proof (Byte.to_N_bounded b). lia.
Qed.

Lemma uint8_inj (a b : byte) : uint8 a = uint8 b → a = b.
Proof.
  unfold uint8. intros H. apply N2Z.inj in H.
  apply (f_equal Byte.of_N) in H. rewrite !Byte.of_to_N in H. congruence.
Qed.

Lemma uint8_to_byte (x : Z) : uint8 (to_byte x) = x mod 256.
Proof.
  unfold uint8, to_byte.
  pose proof (Z.mod_pos_bound x 256 ltac:(lia)) as Hb.
  destruct (Byte.of_N (Z.to_N (x mod 256))) as [b|] eqn:E; simpl.
  - apply Byte.to_of_N in E. rewrite E. lia.
  - apply Byte.of_N_None_iff in E. lia.
Qed.

Lemma to_byte_uint8 (b : byte) : to_byte (uint8 b) = b.
Proof.
  apply uint8_inj. rewrite uint8_to_byte.
  pose proof (uint8_range b). apply Z.mod_small. lia.
Qed.

Lemma lor_shiftl_add (lo hi k : Z) :
  0 ≤ k → 0 ≤ lo < 2 ^ k → Z.lor lo (Z.shiftl hi k) = lo + hi * 2 ^ k.
Proof.
  intros Hk Hlo. rewrite <- Z.add_nocarry_lor.
  - rewrite Z.shiftl_mul_pow2 by lia. reflexivity.
  - apply Z.bits_inj'. intros n Hn.
    rewrite Z.land_spec, Z.bits_0.
    destruct (Z.lt_ge_cases n k) as [Hlt|Hge].
    + rewrite (Z.shiftl_spec_low hi k n) by lia. apply andb_false_r.
    + assert (Z.testbit lo n = false) as ->; [|reflexivity].
      destruct (Z.eq_dec lo 0) as [->|Hne]; [apply Z.bits_0|].
      apply Z.bits_above_log2; [lia|].
      apply Z.log2_lt_pow2; [lia|].
      apply Z.lt_le_trans with (2 ^ k); [lia|].
      apply Z.pow_le_mono_r; lia.
Qed.

Lemma be_val_snoc (l : bytes) (b : byte) :
  be_val (l ++ [b]) = be_val l * 256 + uint8 b.
Proof. unfold be_val. rewrite foldl_app. reflexivity. Qed.

Lemma be_val_range (l : bytes) : 0 ≤ be_val l < 256 ^ Z.of_nat (length l).
Proof.
  induction l as [|b l IH] using rev_ind.
  - simpl. unfold be_val. simpl. lia.
  - rewrite be_val_snoc, length_app. simpl length.
    replace (Z.of_nat (length l + 1)) with (Z.of_nat (length l) + 1) by lia.
    rewrite Z.pow_add_r by lia. pose proof (uint8_range b). lia.
Qed.

Lemma be_val_cons (b : byte) (l : bytes) :
  be_val (b :: l) = uint8 b * 256 ^ Z.of_nat (length l) + be_val l.
Proof.
  induction l as [|c l IH] using rev_ind.
  - unfold be_val. simpl. lia.
  - rewrite app_comm_cons, !be_val_snoc, IH, length_app. simpl length.
    replace (Z.of_nat (length l + 1)) with (Z.of_nat (length l) + 1) by lia.
    rewrite Z.pow_add_r by lia. lia.
Qed.

Lemma BigEndian_Uint64_be (v : bytes) :
  (8 ≤ length v)%nat → BigEndian_Uint64 v = Returns (be_val (take 8 v)).
Proof.
  intros Hlen.
  destruct v as [|b [|b0 [|b1 [|b2 [|b3 [|b4 [|b5 [|b6 v]]]]]]]];
    try (simpl in Hlen; lia).
  unfold BigEndian_Uint64. f_equal. simpl take. unfold be_val. simpl foldl.
  clear Hlen.
  pose proof (uint8_range b). pose proof (uint8_range b0).
  pose proof (uint8_range b1). pose proof (uint8_range b2).
  pose proof (uint8_range b3). pose proof (uint8_range b4).
  pose proof (uint8_range b5). pose proof (uint8_range b6).
  rewrite (lor_shiftl_add _ _ 8) by lia.
  rewrite (lor_shiftl_add _ _ 16) by lia.
  rewrite (lor_shiftl_add _ _ 24) by lia.
  rewrite (lor_shiftl_add _ _ 32) by lia.
  rewrite (lor_shiftl_add _ _ 40) by lia.
  rewrite (lor_shiftl_add _ _ 48) by lia.
  rewrite (lor_shiftl_add _ _ 56) by lia.
  lia.
Qed.

Lemma B2i_be (v : bytes) : length v = 8%nat → B2i v = Returns (be_val v).
Proof.
  intros Hlen. unfold B2i. rewrite BigEndian_Uint64_be by lia.
  rewrite firstn_all2 by lia. reflexivity.
Qed.

Lemma B2i_short (v : bytes) : (length v < 8)%nat → B2i v = Panics.
Proof.
  intros Hlen. unfold B2i, BigEndian_Uint64.
  do 8 (destruct v as [|? v]; [reflexivity|]). simpl in Hlen. lia.
Qed.

Lemma I2b_length (x : Z) : length (I2b x) = 8%nat.
Proof. reflexivity. Qed.

Lemma be_val_I2b (x : Z) : be_val (I2b x) = u64 x.
Proof.
  unfold I2b, be_val, u64. simpl foldl. rewrite !uint8_to_byte.
  rewrite !Z.shiftr_div_pow2 by lia.
  change (2 ^ 8) with 256.
  change (2 ^ 16) with (256 * 256).
  change (2 ^ 24) with (256 * 256 * 256).
  change (2 ^ 32) with (256 * 256 * 256 * 256).
  change (2 ^ 40) with (256 * 256 * 256 * 256 * 256).
  change (2 ^ 48) with (256 * 256 * 256 * 256 * 256 * 256).
  change (2 ^ 56) with (256 * 256 * 256 * 256 * 256 * 256 * 256).
  change (2 ^ 64) with (256 * (256 * 256 * 256 * 256 * 256 * 256 * 256)).
  rewrite <- !Z.div_div by lia.
  set (x1 := x / 256). set (x2 := x1 / 256). set (x3 := x2 / 256).
  set (x4 := x3 / 256). set (x5 := x4 / 256). set (x6 := x5 / 256).
  set (x7 := x6 / 256).
  rewrite (Z.mod_eq x (256 * _)) by lia.
  rewrite <- (Z.div_div x 256) by lia. fold x1.
  change (256 * 256 * 256 * 256 * 256 * 256 * 256)
    with (256 * (256 * (256 * (256 * (256 * (256 * 256)))))).
  rewrite <- !Z.div_div by lia.
  fold x2 x3 x4 x5 x6 x7.
  pose proof (Z.div_mod x 256 ltac:(lia)). fold x1 in H.
  pose proof (Z.div_mod x1 256 ltac:(lia)). fold x2 in H0.
  pose proof (Z.div_mod x2 256 ltac:(lia)). fold x3 in H1.
  pose proof (Z.div_mod x3 256 ltac:(lia)). fold x4 in H2.
  pose proof (Z.div_mod x4 256 ltac:(lia)). fold x5 in H3.
  pose proof (Z.div_mod x5 256 ltac:(lia)). fold x6 in H4.
  pose proof (Z.div_mod x6 256 ltac:(lia)). fold x7 in H5.
  pose proof (Z.div_mod x7 256 ltac:(lia)).
  lia.
Qed.

Lemma B2i_I2b_u64 (x : Z) : B2i (I2b x) = Returns (u64 x).
Proof. rewrite B2i_be by reflexivity. rewrite be_val_I2b. reflexivity. Qed.

(** C9: decoding the 8-byte big-endian encoding of any [x] in
    [0, 2^64-1] returns [x]: [B2i (I2b x) = x]. *)
Theorem B2i_I2b_roundtrip (x : Z) :
  0 ≤ x ≤ 2 ^ 64 - 1 → B2i (I2b x) = Returns x.
Proof.
  intros Hx. rewrite B2i_I2b_u64. unfold u64.
  rewrite Z.mod_small by lia. reflexivity.
Qed.

Lemma B2i_I2b_roundtrip_witness :
  0 ≤ 123456 ≤ 2 ^ 64 - 1 ∧ B2i (I2b 123456) = Returns 123456.
Proof.
  split; [lia | apply (B2i_I2b_roundtrip 123456); lia].
Defined.

(** ** Bucket names and the engine's primitives *)

Lemma hashBucket_eq (name : string) : hashBucket name = x1e :: S2b name.
Proof. unfold hashBucket, Bconcat. simpl. by rewrite app_nil_r. Qed.

Lemma zetKeyBucket_eq (name : string) : zetKeyBucket name = x1f :: S2b name.
Proof. unfold zetKeyBucket, Bconcat. simpl. by rewrite app_nil_r. Qed.

Lemma zetScoreBucket_eq (name : string) : zetScoreBucket name = x1d :: S2b name.
Proof. unfold zetScoreBucket, Bconcat. simpl. by rewrite app_nil_r. Qed.

Lemma S2b_inj (n1 n2 : string) : S2b n1 = S2b n2 → n1 = n2.
Proof.
  unfold S2b. intros H. apply (f_equal string_of_list_byte) in H.
  by rewrite !string_of_list_byte_of_string in H.
Qed.

Lemma zetKey_ne_zetScore (n1 n2 : string) : zetKeyBucket n1 ≠ zetScoreBucket n2.
Proof. rewrite zetKeyBucket_eq, zetScoreBucket_eq. discriminate. Qed.

Lemma zetKeyBucket_inj (n1 n2 : string) : zetKeyBucket n1 = zetKeyBucket n2 → n1 = n2.
Proof. rewrite !zetKeyBucket_eq. intros [= H]. by apply S2b_inj. Qed.

Lemma zetScoreBucket_inj (n1 n2 : string) :
  zetScoreBucket n1 = zetScoreBucket n2 → n1 = n2.
Proof. rewrite !zetScoreBucket_eq. intros [= H]. by apply S2b_inj. Qed.

Lemma Bconcat_pair (a b : bytes) : Bconcat [a; b] = a ++ b.
Proof. unfold Bconcat. simpl. by rewrite app_nil_r. Qed.

Lemma bind_TxOk {A B : Type} (a : A) (f : A → txres B) : TxOk a ≫= f = f a.
Proof. reflexivity. Qed.

Lemma create_existing (b : bytes) (tx : store) :
  is_Some (tx !! b) → b ≠ [] → tx_CreateBucketIfNotExists b tx = TxOk tx.
Proof.
  intros [m Hm] Hb. unfold tx_CreateBucketIfNotExists.
  destruct b; [done|]. by rewrite Hm.
Qed.

(** Creating a bucket succeeds for a non-empty name, leaves every bucket's
    contents as they were and keeps the buckets that exist. *)
Lemma create_spec (b : bytes) (tx : store) :
  b ≠ [] →
  ∃ tx', tx_CreateBucketIfNotExists b tx = TxOk tx' ∧
    is_Some (tx' !! b) ∧
    (∀ b', bucket_of tx' b' = bucket_of tx b') ∧
    (∀ b', is_Some (tx !! b') → is_Some (tx' !! b')).
Proof.
  intros Hb. unfold tx_CreateBucketIfNotExists. destruct b as [|x b]; [done|].
  destruct (tx !! (x :: b)) as [m|] eqn:E.
  - exists tx. rewrite E. eauto.
  - exists (<[x :: b := ∅]> tx). split; [done|]. split.
    + rewrite lookup_insert_eq. eauto.
    + split; intros b'; unfold bucket_of.
      * destruct (decide (x :: b = b')) as [<-|Hne].
        -- by rewrite lookup_insert_eq, E.
        -- by rewrite lookup_insert_ne.
      * destruct (decide (x :: b = b')) as [<-|Hne].
        -- rewrite lookup_insert_eq. eauto.
        -- by rewrite lookup_insert_ne.
Qed.

Lemma Bucket_Get_bucket_of (b key : bytes) (tx : store) :
  Bucket_Get b key tx = bucket_of tx b !! key.
Proof.
  unfold Bucket_Get, bucket_of. destruct (tx !! b); simpl; [done|].
  by rewrite lookup_empty.
Qed.

Lemma Bucket_Get_Some_bucket (b key v : bytes) (tx : store) :
  Bucket_Get b key tx = Some v → is_Some (tx !! b).
Proof. unfold Bucket_Get. destruct (tx !! b); [eauto|discriminate]. Qed.

(** A successful [Put] inserts into the named bucket only. *)
Lemma put_spec (b key value : bytes) (tx tx' : store) :
  Bucket_Put b key value tx = TxOk tx' →
  is_Some (tx !! b) →
  key ≠ [] ∧
  bucket_of tx' b = <[key := value]> (bucket_of tx b) ∧
  (∀ b', b' ≠ b → bucket_of tx' b' = bucket_of tx b') ∧
  (∀ b', is_Some (tx !! b') → is_Some (tx' !! b')).
Proof.
  unfold Bucket_Put. intros H [m Hm].
  repeat case_decide; try discriminate. injection H as <-.
  split; [by destruct key|]. unfold bucket_of. split; [|split].
  - by rewrite lookup_alter_eq, Hm.
  - intros b' Hne. by rewrite lookup_alter_ne.
  - intros b' [m' Hm']. destruct (decide (b = b')) as [<-|Hne].
    + rewrite lookup_alter_eq, Hm'. simpl. eauto.
    + rewrite lookup_alter_ne by done. eauto.
Qed.

(** [Delete] removes the key from the named bucket only. *)
Lemma delete_spec (b key : bytes) (tx : store) :
  is_Some (tx !! b) →
  ∃ tx', Bucket_Delete b key tx = TxOk tx' ∧
    bucket_of tx' b = delete key (bucket_of tx b) ∧
    (∀ b', b' ≠ b → bucket_of tx' b' = bucket_of tx b') ∧
    (∀ b', is_Some (tx !! b') → is_Some (tx' !! b')).
Proof.
  intros [m Hm]. eexists. split; [reflexivity|]. unfold bucket_of.
  split; [|split].
  - by rewrite lookup_alter_eq, Hm.
  - intros b' Hne. by rewrite lookup_alter_ne.
  - intros b' [m' Hm']. destruct (decide (b = b')) as [<-|Hne].
    + rewrite lookup_alter_eq, Hm'. simpl. eauto.
    + rewrite lookup_alter_ne by done. eauto.
Qed.

(** ** Decoders and reverse scan: where the code panics *)

Lemma Reply_Uint64_returns (r : Reply) : ∃ x, Reply_Uint64 r = Returns x.
Proof.
  unfold Reply_Uint64. destruct (Data r) as [|d ?]; [eauto|].
  case_decide; [eauto|]. rewrite BigEndian_Uint64_be by lia. eauto.
Qed.

Lemma Reply_Int64_returns (r : Reply) : ∃ x, Reply_Int64 r = Returns x.
Proof.
  unfold Reply_Int64. case_decide; [eauto|].
  destruct (Reply_Uint64_returns r) as [x ->]. simpl. eauto.
Qed.

Lemma Reply_Int_returns (r : Reply) : ∃ x, Reply_Int r = Returns x.
Proof.
  unfold Reply_Int. destruct (Reply_Uint64_returns r) as [x ->]. simpl. eauto.
Qed.

Lemma Reply_Uint_returns (r : Reply) : ∃ x, Reply_Uint r = Returns x.
Proof. apply Reply_Uint64_returns. Qed.

Lemma Reply_JSON_empty (json_Unmarshal : bytes → error) (r : Reply) :
  Data r = [] → Reply_JSON json_Unmarshal r = Panics.
Proof. intros H. unfold Reply_JSON. by rewrite H. Qed.

Lemma bs_Uint64_short (v : bytes) : (length v < 8)%nat → bs_Uint64 v = Returns 0.
Proof. intros H. unfold bs_Uint64. by case_decide. Qed.

(** C3: a score shorter than eight bytes makes [B2i] panic, where its
    sibling [bs.Uint64] returns zero, and [Reply.JSON] panics on a reply
    without data, where the other decoders of [Reply] return zero values. *)
Theorem decoders_panic_on_short_input :
  B2i [x01; x02; x03] = Panics ∧
  bs_Uint64 [x01; x02; x03] = Returns 0 ∧
  (∀ json_Unmarshal, Reply_JSON json_Unmarshal (mkReply replyNotFound []) = Panics) ∧
  Reply_Uint64 (mkReply replyNotFound []) = Returns 0 ∧
  Reply_String (mkReply replyNotFound []) = ""%string.
Proof. repeat split. Qed.

Lemma Hrscan_existing_bucket (name : string) (keyStart : bytes) (limit : Z)
    (db : store) (b : bucket) :
  db !! hashBucket name = Some b → Hrscan name keyStart limit db = Panics.
Proof. intros H. unfold Hrscan, View, tx_Bucket. by rewrite H. Qed.

(** C2: on a hashmap holding the key "a", the reverse scan below "b"
    panics on [err.Error()] of a nil error instead of returning a reply
    that lists the pair. *)
Theorem Hrscan_panics_on_success :
  Hrscan "h" (S2b "b") 10 (Hset "h" (S2b "a") (S2b "1") ∅).1 = Panics.
Proof. vm_compute. reflexivity. Qed.

(** C10: [Zmset] accepts a score that with its member is shorter than
    eight bytes, and the next [Zscan] of that set panics on [k[8:]]. *)
Theorem Zscan_panics_after_short_Zmset (limit : Z) :
  (Zmset "s" [S2b "a"; S2b "1"] ∅).2 = Returns err_nil ∧
  (length (S2b "1" ++ S2b "a") < 8)%nat ∧
  Zscan "s" [] [] limit (Zmset "s" [S2b "a"; S2b "1"] ∅).1 = Panics.
Proof. split; [|split]; [by vm_compute | simpl; lia | by vm_compute]. Qed.

(** ** Hashmap point operations *)

Lemma Hset_ok (name : string) (key val : bytes) (db : store) :
  key ≠ [] → Z.of_nat (length key) ≤ MaxKeySize →
  Z.of_nat (length val) ≤ MaxValueSize →
  ∃ db', Hset name key val db = (db', Returns err_nil) ∧
    is_Some (db' !! hashBucket name) ∧
    bucket_of db' (hashBucket name) = <[key := val]> (bucket_of db (hashBucket name)).
Proof.
  intros Hk Hkl Hvl. unfold Hset, Update.
  destruct (create_spec (hashBucket name) db) as (tx1 & -> & Hs & Hc & _).
  { rewrite hashBucket_eq. discriminate. }
  simpl. destruct (Bucket_Put (hashBucket name) key val tx1) as [tx2| |] eqn:E.
  - destruct (put_spec _ _ _ _ _ E Hs) as (_ & Hb & _ & Hs').
    exists tx2. split; [done|]. split; [by apply Hs'|]. by rewrite Hb, Hc.
  - unfold Bucket_Put in E. repeat case_decide; try discriminate.
    + by destruct key.
    + lia.
    + lia.
  - unfold Bucket_Put in E. repeat case_decide; discriminate.
Qed.

Lemma Hget_found (name : string) (key v : bytes) (db : store) :
  is_Some (db !! hashBucket name) →
  bucket_of db (hashBucket name) !! key = Some v →
  Hget name key db = Returns (mkReply replyOK [v]).
Proof.
  intros [b Hb] Hv. unfold Hget, View, tx_Bucket. rewrite Hb.
  unfold bucket_of in Hv. rewrite Hb in Hv. simpl in Hv. by rewrite Hv.
Qed.

Lemma Hget_key_absent (name : string) (key : bytes) (db : store) :
  is_Some (db !! hashBucket name) →
  bucket_of db (hashBucket name) !! key = None →
  Hget name key db = Returns (mkReply keyNotFound []).
Proof.
  intros [b Hb] Hv. unfold Hget, View, tx_Bucket. rewrite Hb.
  unfold bucket_of in Hv. rewrite Hb in Hv. simpl in Hv. by rewrite Hv.
Qed.

Lemma Hget_bucket_absent (name : string) (key : bytes) (db : store) :
  db !! hashBucket name = None →
  Hget name key db = Returns (mkReply bucketNotFound []).
Proof. intros Hb. unfold Hget, View, tx_Bucket. by rewrite Hb. Qed.

(** C8, as the code has it: after [Hset "h" "k1" "v1"], [Hget "h" "k1"]
    returns status [ok] with data "v1"; [Hget "h" "missing"], for a key the
    hashmap does not hold, returns the status [key_not_found] and no data;
    [Hget] on an absent namespace returns the status [bucket_not_found]. *)
Theorem Hget_status (db : store) :
  Bucket_Get (hashBucket "h") (S2b "missing") db = None →
  let db' := (Hset "h" (S2b "k1") (S2b "v1") db).1 in
  Hget "h" (S2b "k1") db' = Returns (mkReply "ok" [S2b "v1"]) ∧
  Hget "h" (S2b "missing") db' = Returns (mkReply "key_not_found" []) ∧
  ∀ name key (db0 : store), tx_Bucket (hashBucket name) db0 = None →
    Hget name key db0 = Returns (mkReply "bucket_not_found" []).
Proof.
  intros Hmiss db'.
  destruct (Hset_ok "h" (S2b "k1") (S2b "v1") db) as (db1 & Hrun & Hs & Hb);
    [done | by vm_compute | by vm_compute |].
  subst db'. rewrite Hrun. simpl. split; [|split].
  - apply Hget_found; [done|]. rewrite Hb. apply lookup_insert_eq.
  - apply Hget_key_absent; [done|]. rewrite Hb.
    rewrite lookup_insert_ne by (by vm_compute).
    by rewrite <- Bucket_Get_bucket_of.
  - intros name key db0 H0. by apply Hget_bucket_absent.
Qed.

Lemma Hget_status_witness :
  Hget "h" (S2b "k1") (Hset "h" (S2b "k1") (S2b "v1") ∅).1
    = Returns (mkReply "ok" [S2b "v1"]) ∧
  Hget "h" (S2b "missing") (Hset "h" (S2b "k1") (S2b "v1") ∅).1
    = Returns (mkReply "key_not_found" []).
Proof.
  assert (Bucket_Get (hashBucket "h") (S2b "missing") ∅ = None) as H
    by reflexivity.
  split; [apply (Hget_status ∅ H) | apply (Hget_status ∅ H)].
Defined.

(** C8, counterexample: the status of [Hget] for a missing key is the
    string [key_not_found], which is not the status [not_found]. *)
Lemma Hget_missing_status_counterexample :
  ∃ r, Hget "h" (S2b "missing") (Hset "h" (S2b "k1") (S2b "v1") ∅).1 = Returns r ∧
       State r ≠ "not_found"%string.
Proof. eexists. split; [by vm_compute | by vm_compute]. Qed.

(** C7, as the code has it: [HdelBucket] drops the whole namespace and
    returns no error when the namespace exists; when it is absent the store
    stays as it is and the engine's error "bucket not found" is returned. *)
Theorem HdelBucket_spec (name : string) (db db' : store) (res : outcome error) :
  HdelBucket name db = (db', res) →
  match tx_Bucket (hashBucket name) db with
  | Some _ =>
      res = Returns err_nil ∧ tx_Bucket (hashBucket name) db' = None ∧
      ∀ b, b ≠ hashBucket name → tx_Bucket b db' = tx_Bucket b db
  | None => res = Returns (errors_New "bucket not found") ∧ db' = db
  end.
Proof.
  unfold HdelBucket, Update, tx_DeleteBucket, tx_Bucket.
  destruct (db !! hashBucket name) as [b|] eqn:E; intros [= <- <-].
  - split; [done|]. split; [apply lookup_delete_eq|].
    intros b' Hne. by apply lookup_delete_ne.
  - done.
Qed.

Lemma HdelBucket_spec_witness :
  (HdelBucket "h" (Hset "h" (S2b "k1") (S2b "v1") ∅).1).2 = Returns err_nil ∧
  tx_Bucket (hashBucket "h")
    (HdelBucket "h" (Hset "h" (S2b "k1") (S2b "v1") ∅).1).1 = None.
Proof.
  pose proof (HdelBucket_spec "h" (Hset "h" (S2b "k1") (S2b "v1") ∅).1 _ _
                (surjective_pairing _)) as H.
  change (tx_Bucket (hashBucket "h") (Hset "h" (S2b "k1") (S2b "v1") ∅).1)
    with (Some (<[S2b "k1" := S2b "v1"]> (∅ : bucket))) in H.
  exact (conj (proj1 H) (proj1 (proj2 H))).
Defined.

(** C7, counterexample: on a store without the namespace, [HdelBucket]
    returns an error. *)
Lemma HdelBucket_absent_counterexample :
  tx_Bucket (hashBucket "h") ∅ = None ∧
  (HdelBucket "h" ∅).2 = Returns (errors_New "bucket not found") ∧
  (HdelBucket "h" ∅).2 ≠ Returns err_nil.
Proof. by vm_compute. Qed.

(** ** The overflow guard of the increments *)

Lemma Hincr_guard (name : string) (key stored : bytes) (step old : Z) (db : store) :
  Bucket_Get (hashBucket name) key db = Some stored →
  B2i stored = Returns old →
  incr_overflows step old = true →
  Hincr name key step db = (db, Returns (0, errors_New "overflow number")).
Proof.
  intros Hget Hdec Hov. unfold Hincr, Update_with, Hincr_tx.
  rewrite create_existing;
    [| by eapply Bucket_Get_Some_bucket | rewrite hashBucket_eq; discriminate].
  by rewrite Hget, Hdec, Hov.
Qed.

Lemma Zincr_guard (name : string) (key stored : bytes) (step old : Z) (db : store) :
  Bucket_Get (zetScoreBucket name) key db = Some stored →
  B2i stored = Returns old →
  incr_overflows step old = true →
  Zincr name key step db = (db, Returns (old, errors_New "overflow number")).
Proof.
  intros Hget Hdec Hov. unfold Zincr, Update_with, Zincr_tx.
  destruct (create_spec (zetKeyBucket name) db) as (tx1 & -> & _ & Hc & Hs).
  { rewrite zetKeyBucket_eq. discriminate. }
  rewrite bind_TxOk. rewrite create_existing;
    [| eapply Hs, Bucket_Get_Some_bucket, Hget
     | rewrite zetScoreBucket_eq; discriminate].
  rewrite Bucket_Get_bucket_of, Hc, <- Bucket_Get_bucket_of, Hget, Hdec, Hov.
  reflexivity.
Qed.

Lemma incr_overflows_at_max (step : Z) :
  0 < step ≤ scoreMax → incr_overflows step scoreMax = true.
Proof.
  unfold incr_overflows, u64, scoreMax. intros H.
  rewrite decide_True by lia. apply bool_decide_eq_true.
  rewrite Z.mod_small by lia. lia.
Qed.

(** A step [2^64 - d] with [1 <= d <= v] is a large positive step: the
    guard compares [scoreMax - step = d - 1] with the stored [v]. *)
Lemma incr_overflows_wrapped (v d : Z) :
  1 ≤ d ≤ v → v ≤ scoreMax → incr_overflows (2 ^ 64 - d) v = true.
Proof.
  unfold incr_overflows, u64, scoreMax. intros H Hv.
  rewrite decide_True by lia. apply bool_decide_eq_true.
  rewrite Z.mod_small by lia. lia.
Qed.

(** C4: when the stored value of a key is the largest score [2^64-1], an
    increment by a positive step returns the overflow error and the store,
    for [Zincr] both index namespaces, is left as it was. *)
Theorem incr_overflow_at_max (name : string) (key stored : bytes) (step : Z)
    (db : store) :
  0 < step ≤ scoreMax →
  B2i stored = Returns scoreMax →
  (Bucket_Get (hashBucket name) key db = Some stored →
   Hincr name key step db = (db, Returns (0, errors_New "overflow number"))) ∧
  (Bucket_Get (zetScoreBucket name) key db = Some stored →
   Zincr name key step db = (db, Returns (scoreMax, errors_New "overflow number"))).
Proof.
  intros Hstep Hdec. split; intros Hget.
  - eapply Hincr_guard; eauto using incr_overflows_at_max.
  - eapply Zincr_guard; eauto using incr_overflows_at_max.
Qed.

Lemma incr_overflow_at_max_witness :
  Hincr "h" (S2b "k") 1 (Hset "h" (S2b "k") (I2b scoreMax) ∅).1
    = ((Hset "h" (S2b "k") (I2b scoreMax) ∅).1,
       Returns (0, errors_New "overflow number")) ∧
  Zincr "s" (S2b "k") 1 (Zset "s" (S2b "k") scoreMax ∅).1
    = ((Zset "s" (S2b "k") scoreMax ∅).1,
       Returns (scoreMax, errors_New "overflow number")).
Proof.
  split.
  - apply (incr_overflow_at_max "h" (S2b "k") (I2b scoreMax) 1);
      [by vm_compute | by vm_compute | by vm_compute].
  - apply (incr_overflow_at_max "s" (S2b "k") (I2b scoreMax) 1);
      [by vm_compute | by vm_compute | by vm_compute].
Defined.

(** C5, as the code has it: for a stored value [v >= 1] and a step
    [2^64 - d] with [1 <= d <= v], the guard of [Hincr] and [Zincr] takes
    the step for a positive one that overflows: the call returns the
    overflow error and the store is left as it was. *)
Theorem incr_wrapped_step_rejected (name : string) (key stored : bytes) (v d : Z)
    (db : store) :
  1 ≤ d ≤ v → v ≤ scoreMax →
  B2i stored = Returns v →
  (Bucket_Get (hashBucket name) key db = Some stored →
   Hincr name key (2 ^ 64 - d) db
     = (db, Returns (0, errors_New "overflow number"))) ∧
  (Bucket_Get (zetScoreBucket name) key db = Some stored →
   Zincr name key (2 ^ 64 - d) db
     = (db, Returns (v, errors_New "overflow number"))).
Proof.
  intros Hd Hv Hdec. split; intros Hget.
  - eapply Hincr_guard; eauto using incr_overflows_wrapped.
  - eapply Zincr_guard; eauto using incr_overflows_wrapped.
Qed.

Lemma incr_wrapped_step_rejected_witness :
  Hincr "h" (S2b "k") (2 ^ 64 - 2) (Hset "h" (S2b "k") (I2b 5) ∅).1
    = ((Hset "h" (S2b "k") (I2b 5) ∅).1,
       Returns (0, errors_New "overflow number")) ∧
  Zincr "s" (S2b "k") (2 ^ 64 - 2) (Zset "s" (S2b "k") 5 ∅).1
    = ((Zset "s" (S2b "k") 5 ∅).1,
       Returns (5, errors_New "overflow number")).
Proof.
  split.
  - apply (incr_wrapped_step_rejected "h" (S2b "k") (I2b 5) 5 2);
      [lia | by vm_compute | by vm_compute | by vm_compute].
  - apply (incr_wrapped_step_rejected "s" (S2b "k") (I2b 5) 5 2);
      [lia | by vm_compute | by vm_compute | by vm_compute].
Defined.

(** C5, counterexample: with 5 stored and the step [2^64 - 1], which
    encodes -1, neither increment succeeds with 4: both return the overflow
    error and the stored value stays 5. *)
Lemma incr_negative_step_counterexample :
  let hdb := (Hset "h" (S2b "k") (I2b 5) ∅).1 in
  let zdb := (Zset "s" (S2b "k") 5 ∅).1 in
  (Hincr "h" (S2b "k") (2 ^ 64 - 1) hdb).2 ≠ Returns (4, err_nil) ∧
  Bucket_Get (hashBucket "h") (S2b "k")
    (Hincr "h" (S2b "k") (2 ^ 64 - 1) hdb).1 = Some (I2b 5) ∧
  (Zincr "s" (S2b "k") (2 ^ 64 - 1) zdb).2 ≠ Returns (4, err_nil) ∧
  Bucket_Get (zetScoreBucket "s") (S2b "k")
    (Zincr "s" (S2b "k") (2 ^ 64 - 1) zdb).1 = Some (I2b 5).
Proof. by vm_compute. Qed.

(** ** The consistency invariant of a sorted set *)

Lemma app_8_inj (s1 m1 s2 m2 : bytes) :
  length s1 = 8%nat → length s2 = 8%nat → s1 ++ m1 = s2 ++ m2 →
  s1 = s2 ∧ m1 = m2.
Proof. intros H1 H2 H. apply app_inj_1 in H; [done|congruence]. Qed.

Lemma ZInvB_empty : ZInvB ∅ ∅.
Proof. split; intros ? ? H; by rewrite lookup_empty in H. Qed.

(** Writing a new score for [key]: put the new composite key, put the score,
    delete the composite key of the old score, if there was one. *)
Lemma ZInvB_update (zk zs : bucket) (key score : bytes) (old : option bytes) :
  ZInvB zk zs → length score = 8%nat → key ≠ [] →
  zs !! key = old → default [] old ≠ score →
  ZInvB
    (match old with
     | Some o => delete (o ++ key) (<[score ++ key := []]> zk)
     | None => <[score ++ key := []]> zk
     end)
    (<[key := score]> zs).
Proof.
  intros [H1 H2] Hlen Hkey Hold Hne. split.
  - intros m s Hm. destruct (decide (m = key)) as [->|Hmk].
    + rewrite lookup_insert_eq in Hm. injection Hm as <-.
      split; [done|]. split; [done|]. destruct old as [o|].
      * rewrite lookup_delete_ne; [apply lookup_insert_eq|].
        intros Heq. destruct (H1 key o Hold) as (Hlo & _).
        apply app_8_inj in Heq as [-> _]; done.
      * apply lookup_insert_eq.
    + rewrite lookup_insert_ne in Hm by done.
      destruct (H1 m s Hm) as (Hl & Hm0 & Hk).
      split; [done|]. split; [done|].
      assert (score ++ key ≠ s ++ m) as Hn1.
      { intros Heq. apply app_8_inj in Heq as [_ ?]; done. }
      destruct old as [o|].
      * destruct (H1 key o Hold) as (Hlo & _).
        rewrite lookup_delete_ne, lookup_insert_ne; [done|done|].
        intros Heq. apply app_8_inj in Heq as [_ ?]; done.
      * by rewrite lookup_insert_ne.
  - intros k v Hk.
    assert (<[score ++ key := []]> zk !! k = Some v ∧
            ∀ o, old = Some o → k ≠ o ++ key) as [Hk' Hko].
    { destruct old as [o|].
      - destruct (decide (k = o ++ key)) as [->|Hn].
        + by rewrite lookup_delete_eq in Hk.
        + rewrite lookup_delete_ne in Hk by done. split; [done|]. congruence.
      - split; [done|]. discriminate. }
    destruct (decide (score ++ key = k)) as [<-|Hn].
    + exists score, key. by rewrite lookup_insert_eq.
    + rewrite lookup_insert_ne in Hk' by done.
      destruct (H2 k v Hk') as (s & m & -> & Hl & Hs).
      exists s, m. split; [done|]. split; [done|].
      destruct (decide (m = key)) as [->|Hmk].
      * exfalso. apply (Hko s); [congruence|done].
      * by rewrite lookup_insert_ne.
Qed.

Lemma ZInvB_delete (zk zs : bucket) (key old : bytes) :
  ZInvB zk zs → zs !! key = Some old →
  ZInvB (delete (old ++ key) zk) (delete key zs).
Proof.
  intros [H1 H2] Hold. destruct (H1 key old Hold) as (Hlo & _ & _). split.
  - intros m s Hm. destruct (decide (key = m)) as [->|Hmk].
    + by rewrite lookup_delete_eq in Hm.
    + rewrite lookup_delete_ne in Hm by done.
      destruct (H1 m s Hm) as (Hl & Hm0 & Hk).
      split; [done|]. split; [done|]. rewrite lookup_delete_ne; [done|].
      intros Heq. apply app_8_inj in Heq as [_ ?]; done.
  - intros k v Hk. destruct (decide (old ++ key = k)) as [<-|Hn].
    + by rewrite lookup_delete_eq in Hk.
    + rewrite lookup_delete_ne in Hk by done.
      destruct (H2 k v Hk) as (s & m & -> & Hl & Hs).
      exists s, m. split; [done|]. split; [done|].
      destruct (decide (key = m)) as [->|Hmk].
      * exfalso. apply Hn. congruence.
      * by rewrite lookup_delete_ne.
Qed.

Section sorted_set_transaction.

Variables kb sb : bytes.
Hypothesis kb_ne_sb : kb ≠ sb.

(** The three writes both [Zset] and [Zincr] make. *)
Lemma index_write_spec (key score : bytes) (old : option bytes) (tx tx' : store) :
  is_Some (tx !! kb) → is_Some (tx !! sb) →
  (tx1 ← Bucket_Put kb (Bconcat [score; key]) [] tx;
   tx2 ← Bucket_Put sb key score tx1;
   match old with
   | Some o => Bucket_Delete kb (Bconcat [o; key]) tx2
   | None => TxOk tx2
   end) = TxOk tx' →
  key ≠ [] ∧
  bucket_of tx' kb =
    match old with
    | Some o => delete (o ++ key) (<[score ++ key := []]> (bucket_of tx kb))
    | None => <[score ++ key := []]> (bucket_of tx kb)
    end ∧
  bucket_of tx' sb = <[key := score]> (bucket_of tx sb) ∧
  zframe kb sb tx tx' ∧ is_Some (tx' !! kb) ∧ is_Some (tx' !! sb).
Proof.
  intros Hk Hs H. rewrite !Bconcat_pair in H.
  destruct (Bucket_Put kb (score ++ key) [] tx) as [tx1| |] eqn:E1;
    try discriminate.
  rewrite bind_TxOk in H.
  destruct (put_spec _ _ _ _ _ E1 Hk) as (_ & Hb1 & Hf1 & Hs1).
  destruct (Bucket_Put sb key score tx1) as [tx2| |] eqn:E2; try discriminate.
  rewrite bind_TxOk in H.
  destruct (put_spec _ _ _ _ _ E2 (Hs1 _ Hs)) as (Hkey & Hb2 & Hf2 & Hs2).
  split; [done|]. destruct old as [o|].
  - rewrite Bconcat_pair in H.
    destruct (delete_spec kb (o ++ key) tx2 (Hs2 _ (Hs1 _ Hk)))
      as (tx3 & E3 & Hb3 & Hf3 & Hs3).
    rewrite E3 in H. injection H as <-.
    split; [by rewrite Hb3, Hf2, Hb1|].
    split; [by rewrite Hf3, Hb2, Hf1|].
    split; [|split; [apply Hs3, Hs2, Hs1, Hk | apply Hs3, Hs2, Hs1, Hs]].
    intros b Hbk Hbs. by rewrite Hf3, Hf2, Hf1.
  - injection H as <-.
    split; [by rewrite Hf2, Hb1|].
    split; [by rewrite Hb2, Hf1|].
    split; [|split; [apply Hs2, Hs1, Hk | apply Hs2, Hs1, Hs]].
    intros b Hbk Hbs. by rewrite Hf2, Hf1.
Qed.

Lemma zset_pair_spec (key score : bytes) (tx tx' : store) :
  zstate kb sb tx → length score = 8%nat →
  zset_pair kb sb key score tx = TxOk tx' →
  zstate kb sb tx' ∧ zframe kb sb tx tx'.
Proof.
  intros (Hk & Hs & Hinv) Hlen H. unfold zset_pair in H.
  destruct (bytes_Equal (Bucket_Get sb key tx) (Some score)) eqn:Eeq;
    simpl negb in H; cbv iota in H.
  - injection H as <-. split; [done|]. by intros b _ _.
  - apply bool_decide_eq_false in Eeq. simpl in Eeq.
    apply index_write_spec in H as (Hkey & Hb1 & Hb2 & Hf & Hk' & Hs');
      [|done|done].
    split; [|done]. split; [done|]. split; [done|].
    rewrite Hb1, Hb2. apply ZInvB_update; try done.
    symmetry. apply Bucket_Get_bucket_of.
Qed.

Lemma Zmset_loop_spec (kvs : list bytes) :
  (∀ tx tx', zstate kb sb tx → Forall (λ s, length s = 8%nat) (kvs_scores kvs) →
     Zmset_loop kb sb kvs tx = TxOk tx' →
     zstate kb sb tx' ∧ zframe kb sb tx tx') ∧
  (∀ k tx tx', zstate kb sb tx →
     Forall (λ s, length s = 8%nat) (kvs_scores (k :: kvs)) →
     Zmset_loop kb sb (k :: kvs) tx = TxOk tx' →
     zstate kb sb tx' ∧ zframe kb sb tx tx').
Proof.
  induction kvs as [|s rest [IH1 IH2]].
  - split.
    + intros tx tx' Hst _ [= <-]. split; [done|]. by intros b _ _.
    + intros k tx tx' Hst _ [= <-]. split; [done|]. by intros b _ _.
  - split; [apply IH2|].
    intros k tx tx' Hst Hsc H. simpl in Hsc, H.
    apply Forall_cons in Hsc as [Hs Hsc].
    destruct (zset_pair kb sb k s tx) as [tx1| |] eqn:E; try discriminate.
    rewrite bind_TxOk in H.
    destruct (zset_pair_spec _ _ _ _ Hst Hs E) as [Hst1 Hf1].
    destruct (IH1 _ _ Hst1 Hsc H) as [Hst' Hf'].
    split; [done|]. intros b Hbk Hbs. by rewrite Hf', Hf1.
Qed.

Lemma Zincr_tx_spec (key : bytes) (step score : Z) (tx tx' : store) :
  zstate kb sb tx → 0 < step < 2 ^ 64 →
  (let vOld := Bucket_Get sb key tx in
   match match vOld with Some v => B2i v | None => Returns 0 end with
   | Panics => (0, TxPanic)
   | Returns score =>
       if incr_overflows step score then (score, TxErr "overflow number")
       else
         let score := u64 (score + step) in
         let newScoreB := I2b score in
         let newKey := Bconcat [newScoreB; key] in
         (score,
          tx ← Bucket_Put kb newKey [] tx;
          tx ← Bucket_Put sb key newScoreB tx;
          match vOld with
          | Some old => Bucket_Delete kb (Bconcat [old; key]) tx
          | None => TxOk tx
          end)
   end) = (score, TxOk tx') →
  zstate kb sb tx' ∧ zframe kb sb tx tx'.
Proof.
  intros (Hk & Hs & Hinv) Hstep H. cbv zeta in H.
  set (vOld := Bucket_Get sb key tx) in *.
  assert (bucket_of tx sb !! key = vOld) as HvOld
    by (symmetry; apply Bucket_Get_bucket_of).
  assert (∃ old, match vOld with Some v => B2i v | None => Returns 0 end
                 = Returns old ∧ 0 ≤ old < 2 ^ 64 ∧
                 ∀ v, vOld = Some v → length v = 8%nat ∧ be_val v = old)
    as (old & Hdec & Hold & Hv).
  { destruct vOld as [v|].
    - destruct Hinv as [H1 _]. destruct (H1 key v HvOld) as (Hl & _).
      exists (be_val v). rewrite B2i_be by done. split; [done|].
      pose proof (be_val_range v) as Hr. rewrite Hl in Hr.
      split; [lia|]. by intros ? [= <-].
    - exists 0. split; [done|]. split; [lia|]. discriminate. }
  rewrite Hdec in H.
  destruct (incr_overflows step old) eqn:Hov; [discriminate|].
  injection H as _ H.
  apply index_write_spec in H as (Hkey & Hb1 & Hb2 & Hf & Hk' & Hs');
    [|done|done].
  split; [|done]. split; [done|]. split; [done|].
  rewrite Hb1, Hb2. apply ZInvB_update; try done.
  unfold incr_overflows, u64, scoreMax in Hov.
  rewrite decide_True in Hov by lia. apply bool_decide_eq_false in Hov.
  rewrite Z.mod_small in Hov by lia.
  destruct vOld as [v|]; simpl.
  - destruct (Hv v eq_refl) as [Hl Hbe]. intros Heq.
    apply (f_equal be_val) in Heq. rewrite be_val_I2b in Heq.
    unfold u64 in Heq. rewrite Z.mod_mod in Heq by lia.
    rewrite Z.mod_small in Heq by lia. lia.
  - discriminate.
Qed.

End sorted_set_transaction.

Lemma zframe_refl (kb sb : bytes) (tx : store) : zframe kb sb tx tx.
Proof. by intros b _ _. Qed.

(** A call on one sorted set keeps the invariant of every other set. *)
Lemma zframe_ZInv (name n : string) (tx tx' : store) :
  zframe (zetKeyBucket name) (zetScoreBucket name) tx tx' →
  ZInv tx' name → ZInv tx n → ZInv tx' n.
Proof.
  intros Hf Hname Hn. destruct (decide (n = name)) as [->|Hne]; [done|].
  unfold ZInv. rewrite !Hf; [done|..]; intros H;
    first [ apply zetScoreBucket_inj in H
          | apply zetKeyBucket_inj in H
          | apply zetKey_ne_zetScore in H
          | symmetry in H; apply zetKey_ne_zetScore in H ]; done.
Qed.

(** The state after the two [CreateBucketIfNotExists] of a mutating call. *)
Lemma create_both (name : string) (db : store) :
  ZInv db name →
  ∃ tx1 tx2,
    tx_CreateBucketIfNotExists (zetKeyBucket name) db = TxOk tx1 ∧
    tx_CreateBucketIfNotExists (zetScoreBucket name) tx1 = TxOk tx2 ∧
    zstate (zetKeyBucket name) (zetScoreBucket name) tx2 ∧
    ∀ b, bucket_of tx2 b = bucket_of db b.
Proof.
  intros Hinv.
  destruct (create_spec (zetKeyBucket name) db) as (tx1 & E1 & Hs1 & Hc1 & Hp1).
  { rewrite zetKeyBucket_eq. discriminate. }
  destruct (create_spec (zetScoreBucket name) tx1) as (tx2 & E2 & Hs2 & Hc2 & Hp2).
  { rewrite zetScoreBucket_eq. discriminate. }
  exists tx1, tx2. split; [done|]. split; [done|]. split.
  - split; [by apply Hp2|]. split; [done|]. by rewrite !Hc2, !Hc1.
  - intros b. by rewrite Hc2, Hc1.
Qed.

Lemma zframe_after_create (kb sb : bytes) (db tx tx' : store) :
  (∀ b, bucket_of tx b = bucket_of db b) → zframe kb sb tx tx' →
  zframe kb sb db tx'.
Proof. intros Hc Hf b Hk Hs. by rewrite Hf, Hc. Qed.

Lemma Zset_inv (name : string) (key : bytes) (val : Z) (db : store) :
  ZInv db name →
  ZInv (Zset name key val db).1 name ∧
  zframe (zetKeyBucket name) (zetScoreBucket name) db (Zset name key val db).1.
Proof.
  intros Hinv. unfold Zset, Update. cbv beta zeta.
  destruct (create_both name db Hinv) as (tx1 & tx & -> & Hcr & Hst & Hc).
  rewrite bind_TxOk, Hcr, bind_TxOk.
  destruct (zset_pair _ _ key (I2b val) tx) as [tx'| |] eqn:E; simpl;
    try (split; [done | apply zframe_refl]).
  apply zset_pair_spec in E as [(_ & _ & Hinv') Hf];
    [|apply zetKey_ne_zetScore|done|done].
  split; [done|]. by eapply zframe_after_create.
Qed.

Lemma Zmset_inv (name : string) (kvs : list bytes) (db : store) :
  ZInv db name → Forall (λ s, length s = 8%nat) (kvs_scores kvs) →
  ZInv (Zmset name kvs db).1 name ∧
  zframe (zetKeyBucket name) (zetScoreBucket name) db (Zmset name kvs db).1.
Proof.
  intros Hinv Hsc. unfold Zmset. case_decide; [split; [done | apply zframe_refl]|].
  unfold Update. cbv beta zeta.
  destruct (create_both name db Hinv) as (tx1 & tx & -> & Hcr & Hst & Hc).
  rewrite bind_TxOk, Hcr, bind_TxOk.
  destruct (Zmset_loop _ _ kvs tx) as [tx'| |] eqn:E; simpl;
    try (split; [done | apply zframe_refl]).
  apply Zmset_loop_spec in E as [(_ & _ & Hinv') Hf];
    [|apply zetKey_ne_zetScore|done|done].
  split; [done|]. by eapply zframe_after_create.
Qed.

Lemma Zincr_inv (name : string) (key : bytes) (step : Z) (db : store) :
  ZInv db name → 0 < step < 2 ^ 64 →
  ZInv (Zincr name key step db).1 name ∧
  zframe (zetKeyBucket name) (zetScoreBucket name) db (Zincr name key step db).1.
Proof.
  intros Hinv Hstep. unfold Zincr, Update_with, Zincr_tx.
  destruct (create_both name db Hinv) as (tx1 & tx & -> & Hcr & Hst & Hc).
  rewrite bind_TxOk, Hcr.
  match goal with |- context [let (_, _) := ?e in _] => destruct e as [score res] eqn:E end.
  destruct res as [tx'| |]; simpl; try (split; [done | apply zframe_refl]).
  apply Zincr_tx_spec in E as [(_ & _ & Hinv') Hf];
    [|apply zetKey_ne_zetScore|done|done].
  split; [done|]. by eapply zframe_after_create.
Qed.

Lemma Zdel_inv (name : string) (key : bytes) (db : store) :
  ZInv db name →
  ZInv (Zdel name key db).1 name ∧
  zframe (zetKeyBucket name) (zetScoreBucket name) db (Zdel name key db).1.
Proof.
  intros Hinv. unfold Zdel, Update, tx_Bucket. cbv beta zeta.
  destruct (db !! zetKeyBucket name) as [zk|] eqn:Ek;
    [|split; [done | apply zframe_refl]].
  destruct (db !! zetScoreBucket name) as [zs|] eqn:Es;
    [|split; [done | apply zframe_refl]].
  destruct (Bucket_Get (zetScoreBucket name) key db) as [old|] eqn:Eg;
    [|split; [done | apply zframe_refl]].
  rewrite Bconcat_pair.
  destruct (delete_spec (zetKeyBucket name) (old ++ key) db)
    as (tx1 & -> & Hb1 & Hf1 & Hs1); [by eauto|].
  rewrite bind_TxOk.
  destruct (delete_spec (zetScoreBucket name) key tx1)
    as (tx2 & -> & Hb2 & Hf2 & Hs2); [by eauto|].
  simpl. split.
  - unfold ZInv. rewrite Hf2 by apply zetKey_ne_zetScore.
    rewrite Hb1, Hb2, Hf1 by (intros H; symmetry in H; by apply zetKey_ne_zetScore in H).
    apply ZInvB_delete; [done|]. by rewrite <- Bucket_Get_bucket_of.
  - intros b Hk Hs. by rewrite Hf2, Hf1.
Qed.

Lemma zcall_run_inv (db : store) (c : zcall) :
  zcall_ok c → (∀ n, ZInv db n) → ∀ n, ZInv (zcall_run db c) n.
Proof.
  intros Hok Hinv n. destruct c as [name key val|name kvs|name key step|name key];
    simpl in *.
  - destruct (Zset_inv name key val db (Hinv name)) as [H Hf].
    by eapply zframe_ZInv.
  - destruct (Zmset_inv name kvs db (Hinv name) Hok) as [H Hf].
    by eapply zframe_ZInv.
  - destruct (Zincr_inv name key step db (Hinv name) Hok) as [H Hf].
    by eapply zframe_ZInv.
  - destruct (Zdel_inv name key db (Hinv name)) as [H Hf].
    by eapply zframe_ZInv.
Qed.

Lemma ZInv_empty (n : string) : ZInv ∅ n.
Proof. unfold ZInv, bucket_of. rewrite !lookup_empty. apply ZInvB_empty. Qed.

Lemma zcalls_run_inv (cs : list zcall) (db : store) :
  Forall zcall_ok cs → (∀ n, ZInv db n) → ∀ n, ZInv (zcalls_run cs db) n.
Proof.
  revert db. induction cs as [|c cs IH]; intros db Hok Hinv; [done|].
  apply Forall_cons in Hok as [Hc Hcs]. simpl.
  apply IH; [done|]. by apply zcall_run_inv.
Qed.

Lemma ZInv_ZConsistent (db : store) (name : string) :
  ZInv db name → ZConsistent db name.
Proof.
  intros [H1 H2]. split.
  - intros m s Hm. destruct (H1 m s Hm) as (Hl & _ & Hk). split; [done|].
    intros s' Hl' [v Hv]. destruct (H2 _ _ Hv) as (s2 & m2 & Heq & Hl2 & Hs2).
    apply app_8_inj in Heq as [-> ->]; [|done|done]. congruence.
  - intros k v Hk. destruct (H2 k v Hk) as (s & m & ? & ? & ?). eauto.
Qed.

(** C1, as the code has it: after each call of a sequence of [Zset],
    [Zdel], [Zmset] with 8-byte scores and [Zincr] with a non-zero step,
    started on the empty store, every member of the member index has its
    composite key in the score index and none under another 8-byte score,
    and every composite key has its member in the member index. *)
Theorem zset_consistency (cs : list zcall) (n : nat) (name : string) :
  Forall zcall_ok cs → ZConsistent (zcalls_run (take n cs) ∅) name.
Proof.
  intros Hok. apply ZInv_ZConsistent, zcalls_run_inv.
  - by apply Forall_take.
  - apply ZInv_empty.
Qed.

Lemma zset_consistency_witness :
  ZConsistent
    (zcalls_run
       (take 4 [CallZset "s" (S2b "alice") 10;
                CallZmset "s" [S2b "bob"; I2b 5];
                CallZincr "s" (S2b "alice") 10;
                CallZdel "s" (S2b "bob")]) ∅) "s".
Proof.
  apply (zset_consistency
           [CallZset "s" (S2b "alice") 10;
            CallZmset "s" [S2b "bob"; I2b 5];
            CallZincr "s" (S2b "alice") 10;
            CallZdel "s" (S2b "bob")] 4 "s").
  repeat constructor; simpl; lia.
Defined.

(** C1, counterexample: [Zmset] takes raw scores of any length, so the
    members "bc" with score "a" and "c" with score "ab" share the composite
    key "abc"; deleting "c" removes it and leaves "bc" without its key. *)
Lemma Zmset_raw_scores_counterexample :
  ¬ ZConsistent
      (zcalls_run
         [CallZmset "s" [S2b "bc"; S2b "a"; S2b "c"; S2b "ab"];
          CallZdel "s" (S2b "c")] ∅) "s".
Proof.
  intros [H1 _]. destruct (H1 (S2b "bc") (S2b "a")) as [Hk _].
  - by vm_compute.
  - vm_compute in Hk. discriminate.
Qed.

(** [Zincr] with step 0 on a stored member puts the composite key it then
    deletes: the member keeps its score and loses its composite key. *)
Lemma Zincr_zero_step_drops_key :
  let db := zcalls_run [CallZincr "s" (S2b "a") 5; CallZincr "s" (S2b "a") 0] ∅ in
  Bucket_Get (zetScoreBucket "s") (S2b "a") db = Some (I2b 5) ∧
  Bucket_Get (zetKeyBucket "s") (I2b 5 ++ S2b "a") db = None.
Proof. by vm_compute. Qed.

(** ** Order of keys *)

Lemma bytes_Compare_refl (a : bytes) : bytes_Compare a a = Eq.
Proof. induction a as [|x a IH]; [done|]. simpl. by rewrite Z.compare_refl. Qed.

Lemma bytes_Compare_eq (a b : bytes) : bytes_Compare a b = Eq → a = b.
Proof.
  revert b. induction a as [|x a IH]; intros [|y b] H; try done.
  simpl in H. destruct (uint8 x ?= uint8 y) eqn:E; try done.
  apply Z.compare_eq, uint8_inj in E. f_equal; [done|by apply IH].
Qed.

Lemma bytes_Compare_antisym (a b : bytes) :
  bytes_Compare b a = CompOpp (bytes_Compare a b).
Proof.
  revert b. induction a as [|x a IH]; intros [|y b]; try done.
  simpl. rewrite (Z.compare_antisym (uint8 x) (uint8 y)).
  destruct (uint8 x ?= uint8 y); simpl; [apply IH|done|done].
Qed.

Lemma bytes_Compare_le_trans (a b c : bytes) :
  bytes_Compare a b ≠ Gt → bytes_Compare b c ≠ Gt → bytes_Compare a c ≠ Gt.
Proof.
  revert b c. induction a as [|x a IH]; intros [|y b] [|z c]; try done.
  simpl. destruct (uint8 x ?= uint8 y) eqn:E1; try done;
    destruct (uint8 y ?= uint8 z) eqn:E2; try done;
    try apply Z.compare_eq in E1; try apply Z.compare_eq in E2;
    try rewrite Z.compare_lt_iff in *.
  - rewrite E1, E2, Z.compare_refl. apply IH.
  - intros _ _. assert ((uint8 x ?= uint8 z) = Lt) as ->; [|done].
    apply Z.compare_lt_iff. lia.
  - intros _ _. assert ((uint8 x ?= uint8 z) = Lt) as ->; [|done].
    apply Z.compare_lt_iff. lia.
  - intros _ _. assert ((uint8 x ?= uint8 z) = Lt) as ->; [|done].
    apply Z.compare_lt_iff. lia.
Qed.

#[global] Instance key_le_trans : Transitive key_le.
Proof. intros x y z. apply bytes_Compare_le_trans. Qed.

#[global] Instance key_le_total : Total key_le.
Proof.
  intros x y. unfold key_le. rewrite (bytes_Compare_antisym x.1 y.1).
  destruct (bytes_Compare x.1 y.1); simpl; auto.
Qed.

(** With prefixes of equal length, the prefixes decide and the rest breaks
    ties. *)
Lemma bytes_Compare_app (s1 s2 m1 m2 : bytes) :
  length s1 = length s2 →
  bytes_Compare (s1 ++ m1) (s2 ++ m2) =
    match bytes_Compare s1 s2 with
    | Eq => bytes_Compare m1 m2
    | c => c
    end.
Proof.
  revert s2. induction s1 as [|x s1 IH]; intros [|y s2] Hlen; try done.
  simpl. destruct (uint8 x ?= uint8 y); [|done|done].
  apply IH. simpl in Hlen. lia.
Qed.

(** Big-endian encodings of equal length compare as their values. *)
Lemma bytes_Compare_be (a b : bytes) :
  length a = length b → bytes_Compare a b = (be_val a ?= be_val b).
Proof.
  revert b. induction a as [|x a IH]; intros [|y b] Hlen; try done.
  simpl in Hlen. simpl bytes_Compare. rewrite !be_val_cons.
  assert (length a = length b) as Hl by lia. rewrite IH by done. rewrite Hl.
  pose proof (be_val_range a) as Ha. pose proof (be_val_range b) as Hb.
  rewrite Hl in Ha. set (p := 256 ^ Z.of_nat (length b)) in *.
  destruct (uint8 x ?= uint8 y) eqn:E.
  - apply Z.compare_eq in E. rewrite E.
    destruct (be_val a ?= be_val b) eqn:E2; symmetry.
    + apply Z.compare_eq in E2. apply Z.compare_eq_iff. lia.
    + rewrite Z.compare_lt_iff in *. lia.
    + rewrite Z.compare_gt_iff in *. lia.
  - symmetry. rewrite Z.compare_lt_iff in *. nia.
  - symmetry. rewrite Z.compare_gt_iff in *. nia.
Qed.

(** ** Cursors over a bucket *)

Lemma Bucket_entries_elem (b : bucket) (k v : bytes) :
  (k, v) ∈ Bucket_entries b ↔ b !! k = Some v.
Proof.
  unfold Bucket_entries. rewrite merge_sort_Permutation.
  apply elem_of_map_to_list.
Qed.

Lemma Bucket_entries_sorted (b : bucket) : StronglySorted key_le (Bucket_entries b).
Proof. apply StronglySorted_merge_sort; apply _. Qed.

Lemma Bucket_entries_NoDup (b : bucket) : NoDup (Bucket_entries b).*1.
Proof.
  unfold Bucket_entries. rewrite merge_sort_Permutation.
  apply NoDup_fst_map_to_list.
Qed.

Lemma Bucket_entries_length (b : bucket) : length (Bucket_entries b) = size b.
Proof.
  unfold Bucket_entries. rewrite merge_sort_Permutation.
  apply length_map_to_list.
Qed.

Lemma sorted_keys_strict (l : list (bytes * bytes)) :
  StronglySorted key_le l → NoDup l.*1 → StronglySorted key_lt l.
Proof.
  induction 1 as [|x l Hs IH Hall]; intros Hnd; [constructor|].
  rewrite fmap_cons in Hnd. apply NoDup_cons in Hnd as [Hx Hnd].
  constructor; [by apply IH|].
  apply Forall_forall. intros y Hy.
  rewrite Forall_forall in Hall. specialize (Hall y Hy).
  unfold key_le in Hall. unfold key_lt.
  destruct (bytes_Compare x.1 y.1) eqn:E; [|done|done].
  apply bytes_Compare_eq in E. exfalso. apply Hx. rewrite E.
  by apply list_elem_of_fmap_2.
Qed.

Lemma Bucket_entries_strict (b : bucket) : StronglySorted key_lt (Bucket_entries b).
Proof.
  apply sorted_keys_strict; [apply Bucket_entries_sorted | apply Bucket_entries_NoDup].
Qed.

(** Seeking below every key leaves the cursor on the first pair. *)
Lemma seek_from_first (seek : bytes) (before es : list (bytes * bytes)) :
  Forall (λ e, bytes_Compare e.1 seek ≠ Lt) es →
  seek_from seek before es = mkCursor before es.
Proof.
  intros H. destruct es as [|e es]; [done|].
  apply Forall_cons in H as [He _]. simpl. by rewrite decide_False.
Qed.

Lemma Cursor_Last_Prev_all (b : bucket) :
  Cursor_Prev_all (Cursor_Last b) = reverse (Bucket_entries b).
Proof. unfold Cursor_Last. by destruct (reverse (Bucket_entries b)). Qed.

(** ** The scan loops on well-formed composite keys *)

Lemma Zscan_loop_all (start : bytes) (limit : Z) (items : list (bytes * bytes))
    (n : Z) (r : Reply) :
  Forall (λ e, bytes_Compare e.1 start = Gt ∧ (8 ≤ length e.1)%nat) items →
  limit ≤ n ∨ n + Z.of_nat (length items) ≤ limit →
  Zscan_loop start limit items n r =
    Returns (mkReply (match items with [] => State r | _ => replyOK end)
                     (Data r ++ flat_map split_data items)).
Proof.
  revert n r. induction items as [|[k v] rest IH]; intros n r Hall Hlim.
  - simpl. rewrite app_nil_r. by destruct r.
  - apply Forall_cons in Hall as [[Hgt Hlen] Hall]. simpl in Hgt, Hlen.
    simpl Zscan_loop. rewrite decide_True by done.
    rewrite decide_False by lia. simpl length in Hlim.
    case_decide as Hn.
    + destruct rest; [|simpl length in Hlim; lia].
      reflexivity.
    + rewrite IH; [|done|lia]. simpl. rewrite <- app_assoc.
      by destruct rest.
Qed.

Lemma Zrscan_loop_all (start : bytes) (limit : Z) (items : list (bytes * bytes))
    (n : Z) (r : Reply) :
  Forall (λ e, bytes_Compare e.1 start = Lt ∧ (8 ≤ length e.1)%nat) items →
  limit ≤ n ∨ n + Z.of_nat (length items) ≤ limit →
  Zrscan_loop start limit items n r =
    Returns (mkReply (match items with [] => State r | _ => replyOK end)
                     (Data r ++ flat_map split_data items)).
Proof.
  revert n r. induction items as [|[k v] rest IH]; intros n r Hall Hlim.
  - simpl. rewrite app_nil_r. by destruct r.
  - apply Forall_cons in Hall as [[Hgt Hlen] Hall]. simpl in Hgt, Hlen.
    simpl Zrscan_loop. rewrite decide_True by done.
    rewrite decide_False by lia. simpl length in Hlim.
    case_decide as Hn.
    + destruct rest; [|simpl length in Hlim; lia].
      reflexivity.
    + rewrite IH; [|done|lia]. simpl. rewrite <- app_assoc.
      by destruct rest.
Qed.

Lemma List_loop_split (items : list (bytes * bytes)) :
  List_loop (flat_map split_data items) = split_entry <$> items.
Proof. induction items as [|e rest IH]; [done|]. simpl. by rewrite IH. Qed.

(** A composite key sorts above the default start of [Zscan]. *)
Lemma above_default_start (s m : bytes) :
  length s = 8%nat → m ≠ [] →
  bytes_Compare (s ++ m) (I2b scoreMin) ≠ Lt ∧
  bytes_Compare (s ++ m) (Bconcat [I2b scoreMin; []]) = Gt.
Proof.
  intros Hl Hm. rewrite Bconcat_pair.
  assert (bytes_Compare (s ++ m) (I2b scoreMin ++ []) = Gt) as H.
  { rewrite bytes_Compare_app by done.
    rewrite bytes_Compare_be by done. rewrite be_val_I2b.
    pose proof (be_val_range s) as Hr.
    change (u64 scoreMin) with 0.
    destruct (be_val s ?= 0) eqn:E.
    - by destruct m.
    - rewrite Z.compare_lt_iff in E. lia.
    - done. }
  rewrite app_nil_r in H. rewrite app_nil_r. rewrite H. done.
Qed.

(** A composite key sorts below the default start of [Zrscan] unless its
    score is the largest and its member starts with byte 255. *)
Lemma below_default_rstart (s m : bytes) :
  length s = 8%nat → m ≠ [] →
  ¬ (B2i s = Returns scoreMax ∧ head m = Some xff) →
  bytes_Compare (s ++ m) (Bconcat [I2b scoreMax; [xff]]) = Lt.
Proof.
  intros Hl Hm Hno. rewrite Bconcat_pair.
  rewrite bytes_Compare_app by done.
  rewrite bytes_Compare_be by done. rewrite be_val_I2b.
  pose proof (be_val_range s) as Hr. rewrite Hl in Hr.
  change (u64 scoreMax) with scoreMax.
  destruct (be_val s ?= scoreMax) eqn:E.
  - apply Z.compare_eq in E. destruct m as [|b m]; [done|].
    simpl. pose proof (uint8_range b) as Hb.
    destruct (uint8 b ?= uint8 xff) eqn:Eb; [|done|].
    + apply Z.compare_eq, uint8_inj in Eb. subst b.
      exfalso. apply Hno. by rewrite B2i_be, E.
    + rewrite Z.compare_gt_iff in Eb. change (uint8 xff) with 255 in Eb. lia.
  - done.
  - rewrite Z.compare_gt_iff in E. unfold scoreMax in E. lia.
Qed.

(** ** Scans of a consistent sorted set from the default start *)

Section default_scans.

Variables (db : store) (name : string) (zk : bucket).
Hypothesis Hinv : ZInv db name.
Hypothesis Hzk : db !! zetKeyBucket name = Some zk.

Lemma zkey_entry_shape (e : bytes * bytes) :
  e ∈ Bucket_entries zk →
  ∃ s m, e.1 = s ++ m ∧ length s = 8%nat ∧ m ≠ [] ∧
    bucket_of db (zetScoreBucket name) !! m = Some s.
Proof.
  destruct e as [k v]. rewrite Bucket_entries_elem. intros Hk.
  destruct Hinv as [H1 H2]. unfold bucket_of in H2 at 1. rewrite Hzk in H2.
  destruct (H2 k v Hk) as (s & m & -> & Hl & Hs).
  destruct (H1 m s Hs) as (_ & Hm & _). eauto 10.
Qed.

Lemma Zscan_default (limit : Z) :
  Z.of_nat (size zk) ≤ limit →
  Zscan name [] [] limit db =
    Returns (mkReply (match Bucket_entries zk with [] => replyError | _ => replyOK end)
                     (flat_map split_data (Bucket_entries zk))).
Proof.
  intros Hlim. unfold Zscan, View, tx_Bucket. rewrite Hzk.
  rewrite decide_False by (simpl; lia).
  unfold Cursor_Seek, Cursor_Next_all. rewrite seek_from_first.
  - simpl c_from. rewrite Zscan_loop_all.
    + simpl. by destruct (Bucket_entries zk).
    + apply Forall_forall. intros e He.
      destruct (zkey_entry_shape e He) as (s & m & -> & Hl & Hm & _).
      split; [by apply above_default_start|]. rewrite length_app. lia.
    + right. rewrite Bucket_entries_length. lia.
  - apply Forall_forall. intros e He.
    destruct (zkey_entry_shape e He) as (s & m & -> & Hl & Hm & _).
    by apply above_default_start.
Qed.

Lemma Zrscan_default (limit : Z) :
  Z.of_nat (size zk) ≤ limit →
  below_reverse_sentinel db name →
  Zrscan name [] [] limit db =
    Returns (mkReply (match Bucket_entries zk with [] => replyError | _ => replyOK end)
                     (flat_map split_data (reverse (Bucket_entries zk)))).
Proof.
  intros Hlim Hbelow. unfold Zrscan, View, tx_Bucket. rewrite Hzk.
  rewrite !decide_False by (simpl; lia).
  rewrite Cursor_Last_Prev_all. rewrite Zrscan_loop_all.
  - simpl. destruct (Bucket_entries zk) as [|e es] eqn:E; [done|].
    destruct (reverse (e :: es)) eqn:Er; [|done].
    apply (f_equal length) in Er. rewrite length_reverse in Er. done.
  - apply Forall_forall. intros e He. rewrite elem_of_reverse in He.
    destruct (zkey_entry_shape e He) as (s & m & -> & Hl & Hm & Hs).
    split; [|rewrite length_app; lia].
    apply below_default_rstart; [done|done|]. by apply Hbelow.
  - right. rewrite length_reverse, Bucket_entries_length. lia.
Qed.

Lemma split_entry_elem (m s : bytes) :
  mkEntry m s ∈ split_entry <$> Bucket_entries zk ↔
  bucket_of db (zetScoreBucket name) !! m = Some s.
Proof.
  split.
  - intros He. apply list_elem_of_fmap in He as (e & Heq & He).
    destruct (zkey_entry_shape e He) as (s' & m' & Hk & Hl & _ & Hs).
    unfold split_entry in Heq. rewrite Hk in Heq.
    rewrite drop_app_length', take_app_length' in Heq by done.
    by injection Heq as -> ->.
  - intros Hs. destruct Hinv as [H1 _].
    destruct (H1 m s Hs) as (Hl & _ & Hk).
    unfold bucket_of in Hk. rewrite Hzk in Hk. simpl in Hk.
    apply Bucket_entries_elem in Hk.
    apply list_elem_of_fmap. exists (s ++ m, []). split; [|done].
    unfold split_entry. simpl.
    by rewrite drop_app_length', take_app_length'.
Qed.

Lemma split_entry_sorted :
  StronglySorted entry_lt (split_entry <$> Bucket_entries zk).
Proof.
  assert (∀ l, (∀ e, e ∈ l → e ∈ Bucket_entries zk) →
               StronglySorted key_lt l →
               StronglySorted entry_lt (split_entry <$> l)) as H.
  { induction l as [|x l IH]; intros Hin Hs; [constructor|].
    apply StronglySorted_inv in Hs as [Hs Hall].
    rewrite fmap_cons. constructor.
    - apply IH; [|done]. intros e He. apply Hin. by right.
    - apply Forall_fmap, Forall_forall. intros y Hy.
      rewrite Forall_forall in Hall. specialize (Hall y Hy).
      destruct (zkey_entry_shape x) as (s1 & m1 & Hk1 & Hl1 & _ & _);
        [apply Hin; by left|].
      destruct (zkey_entry_shape y) as (s2 & m2 & Hk2 & Hl2 & _ & _);
        [apply Hin; by right|].
      unfold key_lt in Hall. rewrite Hk1, Hk2 in Hall.
      rewrite bytes_Compare_app in Hall by congruence.
      rewrite bytes_Compare_be in Hall by congruence.
      unfold entry_lt, split_entry. simpl. rewrite Hk1, Hk2.
      rewrite !drop_app_length', !take_app_length' by done.
      exists (be_val s1), (be_val s2). rewrite !B2i_be by done.
      split; [done|]. split; [done|].
      destruct (be_val s1 ?= be_val s2) eqn:E; [| |done].
      + apply Z.compare_eq in E. by right.
      + rewrite Z.compare_lt_iff in E. by left. }
  apply H; [done|apply Bucket_entries_strict].
Qed.

End default_scans.

(** C6, as the code has it: on a sorted set built by calls with 8-byte
    scores, [Zscan] from the default start with a limit that covers the set
    returns every (member, score) pair, in strictly ascending (score, member
    bytes) order; [Zrscan] from the default start returns the reverse of
    that sequence when no member that starts with byte 255 carries the
    score [2^64-1]. *)
Theorem Zscan_Zrscan_order (cs : list zcall) (name : string) (limit : Z) :
  Forall zcall_ok cs →
  let db := zcalls_run cs ∅ in
  Z.of_nat (Zcount db name) ≤ limit →
  ∃ rf, Zscan name [] [] limit db = Returns rf ∧
    (∀ m s, Bucket_Get (zetScoreBucket name) m db = Some s ↔
            mkEntry m s ∈ Reply_List rf) ∧
    StronglySorted entry_lt (Reply_List rf) ∧
    (below_reverse_sentinel db name →
     ∃ rr, Zrscan name [] [] limit db = Returns rr ∧
           Reply_List rr = reverse (Reply_List rf)).
Proof.
  intros Hok db Hlim.
  assert (ZInv db name) as Hinv.
  { apply zcalls_run_inv; [done|apply ZInv_empty]. }
  destruct (db !! zetKeyBucket name) as [zk|] eqn:Hzk.
  - assert (Z.of_nat (size zk) ≤ limit) as Hsize.
    { unfold Zcount, bucket_of in Hlim. by rewrite Hzk in Hlim. }
    eexists. split; [by apply (Zscan_default db name zk)|].
    unfold Reply_List. simpl Data. rewrite List_loop_split.
    split; [|split].
    + intros m s. rewrite Bucket_Get_bucket_of. symmetry.
      by apply split_entry_elem.
    + by eapply split_entry_sorted.
    + intros Hbelow. eexists.
      split; [by apply (Zrscan_default db name zk)|].
      simpl Data. by rewrite List_loop_split, fmap_reverse.
  - exists (mkReply bucketNotFound []).
    split; [unfold Zscan, View, tx_Bucket; by rewrite Hzk|].
    split; [|split].
    + intros m s. rewrite Bucket_Get_bucket_of. split.
      * intros Hs. destruct Hinv as [H1 _].
        destruct (H1 m s Hs) as (_ & _ & Hk).
        unfold bucket_of in Hk. by rewrite Hzk in Hk.
      * intros He. by apply elem_of_nil in He.
    + constructor.
    + intros _. exists (mkReply bucketNotFound []).
      split; [unfold Zrscan, View, tx_Bucket; by rewrite Hzk|done].
Qed.

Lemma Zscan_Zrscan_order_witness :
  ∃ rf rr,
    Zscan "s" [] [] 10
      (zcalls_run [CallZset "s" (S2b "alice") 10; CallZset "s" (S2b "bob") 5;
                   CallZset "s" (S2b "alice") 20] ∅) = Returns rf ∧
    Zrscan "s" [] [] 10
      (zcalls_run [CallZset "s" (S2b "alice") 10; CallZset "s" (S2b "bob") 5;
                   CallZset "s" (S2b "alice") 20] ∅) = Returns rr ∧
    StronglySorted entry_lt (Reply_List rf) ∧
    Reply_List rr = reverse (Reply_List rf).
Proof.
  assert (Forall zcall_ok
            [CallZset "s" (S2b "alice") 10; CallZset "s" (S2b "bob") 5;
             CallZset "s" (S2b "alice") 20]) as Hok.
  { repeat constructor; simpl; lia. }
  pose proof (Zscan_Zrscan_order _ "s" 10 Hok) as H. cbv zeta in H.
  destruct H as (rf & Hf & _ & Hsorted & Hrev).
  - by vm_compute.
  - destruct Hrev as (rr & Hr & Hrr).
    + intros m s Hs [_ Hhead]. apply elem_of_map_to_list in Hs.
      vm_compute in Hs.
      apply elem_of_cons in Hs as [[= -> ->]|Hs]; [discriminate|].
      apply elem_of_cons in Hs as [[= -> ->]|Hs]; [discriminate|].
      by apply elem_of_nil in Hs.
    + exists rf, rr. split; [exact Hf|]. split; [exact Hr|].
      split; [exact Hsorted | exact Hrr].
Defined.

(** C6, counterexample: with the member [255] at score [2^64-1], [Zscan]
    from the default start lists the pair and [Zrscan] from the default
    start lists nothing. *)
Lemma Zrscan_sentinel_counterexample :
  ∃ rf rr,
    Zscan "s" [] [] 10 (zcalls_run [CallZset "s" [xff] scoreMax] ∅) = Returns rf ∧
    Zrscan "s" [] [] 10 (zcalls_run [CallZset "s" [xff] scoreMax] ∅) = Returns rr ∧
    Reply_List rf = [mkEntry [xff] (I2b scoreMax)] ∧
    Reply_List rr ≠ reverse (Reply_List rf).
Proof.
  exists (mkReply replyOK [[xff]; I2b scoreMax]), (mkReply replyError []).
  split; [by vm_compute|]. split; [by vm_compute|].
  split; [by vm_compute|]. by vm_compute.
Qed.

(* ================================================================== *)
(** * Further properties of the code *)

(** ** The score codec *)

Lemma be_val_inj (a b : bytes) :
  length a = length b → be_val a = be_val b → a = b.
Proof.
  intros Hl He. apply bytes_Compare_eq. rewrite bytes_Compare_be by done.
  rewrite He. apply Z.compare_refl.
Qed.

(** X1: on scores in range, [bytes.Compare] of the encodings is the
    comparison of the numbers: the encoding preserves order. *)
Theorem I2b_order (x y : Z) :
  0 ≤ x ≤ scoreMax → 0 ≤ y ≤ scoreMax →
  bytes_Compare (I2b x) (I2b y) = (x ?= y).
Proof.
  unfold scoreMax. intros Hx Hy. rewrite bytes_Compare_be by done.
  rewrite !be_val_I2b. unfold u64. by rewrite !Z.mod_small by lia.
Qed.

Lemma I2b_order_witness :
  bytes_Compare (I2b 255) (I2b 256) = (255 ?= 256).
Proof. apply (I2b_order 255 256); unfold scoreMax; lia. Defined.

(** X2: [B2i] reads the first eight bytes only, its result is a score in
    range, and encoding that score gives the eight bytes back. *)
Theorem I2b_B2i (v rest : bytes) :
  length v = 8%nat →
  ∃ x, B2i (v ++ rest) = Returns x ∧ 0 ≤ x ≤ scoreMax ∧ I2b x = v.
Proof.
  intros Hl. exists (be_val v). split; [|split].
  - unfold B2i. rewrite BigEndian_Uint64_be by (rewrite length_app; lia).
    by rewrite take_app_length'.
  - pose proof (be_val_range v) as Hr. rewrite Hl in Hr. unfold scoreMax. lia.
  - apply be_val_inj; [by rewrite Hl|]. rewrite be_val_I2b. unfold u64.
    pose proof (be_val_range v) as Hr. rewrite Hl in Hr.
    apply Z.mod_small. lia.
Qed.

Lemma I2b_B2i_witness :
  ∃ x, B2i ([x00; x00; x00; x00; x00; x00; x01; x02] ++ [xff]) = Returns x ∧
       0 ≤ x ≤ scoreMax ∧
       I2b x = [x00; x00; x00; x00; x00; x00; x01; x02].
Proof.
  apply (I2b_B2i [x00; x00; x00; x00; x00; x00; x01; x02] [xff]). reflexivity.
Defined.

(** ** Hashmap point operations, continued *)

Lemma Hget_spec (name : string) (key : bytes) (db : store) :
  Hget name key db =
    match db !! hashBucket name with
    | None => Returns (mkReply bucketNotFound [])
    | Some b =>
        match b !! key with
        | Some v => Returns (mkReply replyOK [v])
        | None => Returns (mkReply keyNotFound [])
        end
    end.
Proof.
  unfold Hget, View, tx_Bucket. destruct (db !! hashBucket name) as [b|]; [|done].
  by destruct (b !! key).
Qed.

Lemma hashBucket_ne_nil (name : string) : hashBucket name ≠ [].
Proof. rewrite hashBucket_eq. discriminate. Qed.

Lemma Put_ok (b key value : bytes) (tx : store) :
  key ≠ [] → Z.of_nat (length key) ≤ MaxKeySize →
  Z.of_nat (length value) ≤ MaxValueSize →
  Bucket_Put b key value tx = TxOk (alter (λ m : bucket, <[key := value]> m) b tx).
Proof.
  intros Hk Hkl Hvl. unfold Bucket_Put.
  rewrite decide_False by (by destruct key).
  rewrite decide_False by lia. by rewrite decide_False by lia.
Qed.

(** The store [Hset] leaves for an acceptable pair. *)
Lemma Hset_store (name : string) (key val : bytes) (db : store) :
  key ≠ [] → Z.of_nat (length key) ≤ MaxKeySize →
  Z.of_nat (length val) ≤ MaxValueSize →
  Hset name key val db =
    (<[hashBucket name := <[key := val]> (bucket_of db (hashBucket name))]> db,
     Returns err_nil).
Proof.
  intros Hk Hkl Hvl. unfold Hset, Update, tx_CreateBucketIfNotExists, bucket_of.
  pose proof (hashBucket_ne_nil name) as Hn.
  destruct (hashBucket name) as [|x hb] eqn:Ehb; [done|].
  destruct (db !! (x :: hb)) as [b|] eqn:Eb; rewrite bind_TxOk, Put_ok by done.
  - f_equal. apply map_eq. intros b'. destruct (decide (x :: hb = b')) as [<-|Hne].
    + by rewrite lookup_alter_eq, lookup_insert_eq, Eb.
    + by rewrite lookup_alter_ne, lookup_insert_ne.
  - f_equal. apply map_eq. intros b'. destruct (decide (x :: hb = b')) as [<-|Hne].
    + by rewrite lookup_alter_eq, !lookup_insert_eq.
    + by rewrite lookup_alter_ne, !lookup_insert_ne.
Qed.

(** X3: [Hset] of a non-empty key within Bolt's size limits returns no
    error; [Hget] of that key then returns [ok] with the value; and [Hget]
    of any other key of the hashmap answers as before the call, with
    [key_not_found] for keys that were not stored. *)
Theorem Hset_Hget (name : string) (key val : bytes) (db : store) :
  key ≠ [] → Z.of_nat (length key) ≤ MaxKeySize →
  Z.of_nat (length val) ≤ MaxValueSize →
  (Hset name key val db).2 = Returns err_nil ∧
  Hget name key (Hset name key val db).1 = Returns (mkReply replyOK [val]) ∧
  ∀ k, k ≠ key →
    Hget name k (Hset name key val db).1 =
      match Bucket_Get (hashBucket name) k db with
      | Some v => Returns (mkReply replyOK [v])
      | None => Returns (mkReply keyNotFound [])
      end.
Proof.
  intros Hk Hkl Hvl. rewrite Hset_store by done. simpl.
  split; [done|]. split.
  - by rewrite Hget_spec, !lookup_insert_eq.
  - intros k Hne. rewrite Hget_spec, lookup_insert_eq, lookup_insert_ne by done.
    by rewrite Bucket_Get_bucket_of.
Qed.

Lemma Hset_Hget_witness :
  Hget "h" (S2b "k") (Hset "h" (S2b "k") (S2b "v") ∅).1
    = Returns (mkReply replyOK [S2b "v"]).
Proof.
  apply (Hset_Hget "h" (S2b "k") (S2b "v") ∅); [done | by vm_compute | by vm_compute].
Defined.

(** X4: [Hdel] never fails and neither creates nor drops the namespace;
    afterwards [Hget] of the key answers [key_not_found] (or
    [bucket_not_found] when the namespace never existed), and [Hget] of
    every other key answers as before. *)
Theorem Hdel_Hget (name : string) (key : bytes) (db : store) :
  (Hdel name key db).2 = Returns err_nil ∧
  Hget name key (Hdel name key db).1 =
    Returns (mkReply (match db !! hashBucket name with
                      | Some _ => keyNotFound
                      | None => bucketNotFound
                      end) []) ∧
  ∀ k, k ≠ key → Hget name k (Hdel name key db).1 = Hget name k db.
Proof.
  unfold Hdel, Update, tx_Bucket, Bucket_Delete.
  destruct (db !! hashBucket name) as [b|] eqn:Eb; simpl.
  - split; [done|]. split.
    + by rewrite Hget_spec, lookup_alter_eq, Eb; simpl; rewrite lookup_delete_eq.
    + intros k Hne. rewrite !Hget_spec, lookup_alter_eq, Eb. simpl.
      by rewrite lookup_delete_ne.
  - split; [done|]. split; [by rewrite Hget_spec, Eb|done].
Qed.

(** X5: an empty key is refused: [Hset] returns Bolt's "key required" and
    leaves the store as it was, without creating the namespace, and so does
    [Zset] for an empty member, although its composite key was already put
    when the second [Put] fails. *)
Theorem empty_key_rejected (name : string) (val : bytes) (score : Z) (db : store) :
  Bucket_Get (zetScoreBucket name) [] db = None →
  Hset name [] val db = (db, Returns (errors_New "key required")) ∧
  Zset name [] score db = (db, Returns (errors_New "key required")).
Proof.
  intros Hnone. split.
  - unfold Hset, Update.
    destruct (create_spec (hashBucket name) db (hashBucket_ne_nil name))
      as (tx & -> & _). by rewrite bind_TxOk.
  - unfold Zset, Update.
    destruct (create_spec (zetKeyBucket name) db) as (tx1 & -> & Hs1 & Hc1 & Hp1).
    { rewrite zetKeyBucket_eq. discriminate. }
    rewrite bind_TxOk.
    destruct (create_spec (zetScoreBucket name) tx1) as (tx2 & -> & Hs2 & Hc2 & Hp2).
    { rewrite zetScoreBucket_eq. discriminate. }
    rewrite bind_TxOk. unfold zset_pair.
    rewrite Bucket_Get_bucket_of, Hc2, Hc1, <- Bucket_Get_bucket_of, Hnone.
    rewrite Bconcat_pair, app_nil_r.
    assert (bytes_Equal None (Some (I2b score)) = false) as -> by done.
    simpl negb. cbv iota.
    rewrite Put_ok by (by vm_compute). by rewrite bind_TxOk.
Qed.

Lemma empty_key_rejected_witness :
  Hset "s" [] (S2b "v") ∅ = (∅, Returns (errors_New "key required")) ∧
  Zset "s" [] 7 ∅ = (∅, Returns (errors_New "key required")).
Proof. apply (empty_key_rejected "s" (S2b "v") 7 ∅). reflexivity. Defined.

Lemma create_store (b : bytes) (tx : store) :
  b ≠ [] → tx_CreateBucketIfNotExists b tx = TxOk (<[b := bucket_of tx b]> tx).
Proof.
  intros Hb. unfold tx_CreateBucketIfNotExists, bucket_of.
  destruct b as [|x b]; [done|].
  destruct (tx !! (x :: b)) as [m|] eqn:E; simpl; [|done].
  by rewrite insert_id.
Qed.

Lemma Hmset_loop_Hset_each (name : string) (kvs : list bytes) :
  (∀ tx, is_Some (tx !! hashBucket name) →
     Forall (λ x, Z.of_nat (length x) ≤ MaxValueSize) kvs →
     Forall (λ k, k ≠ [] ∧ Z.of_nat (length k) ≤ MaxKeySize) (kvs_keys kvs) →
     Hmset_loop (hashBucket name) kvs tx = TxOk (Hset_each name kvs tx)) ∧
  (∀ k tx, is_Some (tx !! hashBucket name) →
     Forall (λ x, Z.of_nat (length x) ≤ MaxValueSize) (k :: kvs) →
     Forall (λ k, k ≠ [] ∧ Z.of_nat (length k) ≤ MaxKeySize) (kvs_keys (k :: kvs)) →
     Hmset_loop (hashBucket name) (k :: kvs) tx = TxOk (Hset_each name (k :: kvs) tx)).
Proof.
  induction kvs as [|v rest [IH1 IH2]]; [done|].
  split; [apply IH2|]. intros k tx [b Hb] Hv Hk. simpl in *.
  apply Forall_cons in Hk as [[Hk1 Hk2] Hk].
  apply Forall_cons in Hv as [_ Hv]. apply Forall_cons in Hv as [Hv1 Hv].
  rewrite Put_ok, bind_TxOk, Hset_store by done. simpl.
  assert (alter (λ m : bucket, <[k:=v]> m) (hashBucket name) tx =
          <[hashBucket name := <[k:=v]> (bucket_of tx (hashBucket name))]> tx) as ->.
  { apply map_eq. intros b'. unfold bucket_of. rewrite Hb. simpl.
    destruct (decide (hashBucket name = b')) as [<-|Hne].
    - by rewrite lookup_alter_eq, lookup_insert_eq, Hb.
    - by rewrite lookup_alter_ne, lookup_insert_ne. }
  apply IH1; [|done|done]. rewrite lookup_insert_eq. eauto.
Qed.

(** X6: for a non-empty argument list of even length whose keys are
    non-empty and within Bolt's size limits, [Hmset] returns no error and
    leaves the store that [Hset] of the pairs, one call after the other,
    leaves: a later pair for the same key overwrites an earlier one. *)
Theorem Hmset_as_Hset_each (name : string) (kvs : list bytes) (db : store) :
  kvs ≠ [] → (length kvs mod 2 = 0)%nat →
  Forall (λ x, Z.of_nat (length x) ≤ MaxValueSize) kvs →
  Forall (λ k, k ≠ [] ∧ Z.of_nat (length k) ≤ MaxKeySize) (kvs_keys kvs) →
  Hmset name kvs db = (Hset_each name kvs db, Returns err_nil).
Proof.
  intros Hne Heven Hv Hk. unfold Hmset.
  rewrite decide_False by (intros [H|H]; [by destruct kvs|done]).
  unfold Update. rewrite create_store by apply hashBucket_ne_nil.
  rewrite bind_TxOk.
  rewrite (proj1 (Hmset_loop_Hset_each name kvs));
    [|rewrite lookup_insert_eq; eauto|done|done].
  f_equal. destruct kvs as [|k [|v rest]]; [done|done|]. simpl.
  apply Forall_cons in Hk as [[Hk1 Hk2] _].
  apply Forall_cons in Hv as [_ Hv]. apply Forall_cons in Hv as [Hv1 _].
  rewrite !Hset_store by done. simpl. f_equal.
  rewrite insert_insert_eq. unfold bucket_of at 1. by rewrite lookup_insert_eq.
Qed.

Lemma Hmset_as_Hset_each_witness :
  Hmset "h" [S2b "a"; S2b "1"; S2b "b"; S2b "2"; S2b "a"; S2b "3"] ∅ =
    (Hset_each "h" [S2b "a"; S2b "1"; S2b "b"; S2b "2"; S2b "a"; S2b "3"] ∅,
     Returns err_nil).
Proof.
  apply (Hmset_as_Hset_each "h"
           [S2b "a"; S2b "1"; S2b "b"; S2b "2"; S2b "a"; S2b "3"] ∅).
  - done.
  - reflexivity.
  - repeat constructor; by vm_compute.
  - repeat constructor; by vm_compute.
Defined.

(** ** Increments, continued *)


Lemma Reply_Uint64_I2b (st : string) (x : Z) (rest : list bytes) :
  Reply_Uint64 (mkReply st (I2b x :: rest)) = Returns (u64 x).
Proof.
  unfold Reply_Uint64. simpl Data. cbv iota.
  rewrite decide_False by (simpl; lia). apply B2i_I2b_u64.
Qed.



(** X8: a stored value shorter than eight bytes makes [Hincr] and [Zincr]
    panic in [B2i]; the transaction is rolled back and the store is as
    before. *)
Theorem incr_panics_on_short_value (name : string) (key v : bytes) (step : Z)
    (db : store) :
  (length v < 8)%nat →
  (Bucket_Get (hashBucket name) key db = Some v →
   Hincr name key step db = (db, Panics)) ∧
  (Bucket_Get (zetScoreBucket name) key db = Some v →
   Zincr name key step db = (db, Panics)).
Proof.
  intros Hlen. split; intros Hget.
  - unfold Hincr, Update_with, Hincr_tx.
    rewrite create_existing;
      [| by eapply Bucket_Get_Some_bucket | apply hashBucket_ne_nil].
    by rewrite Hget, B2i_short.
  - unfold Zincr, Update_with, Zincr_tx.
    destruct (create_spec (zetKeyBucket name) db) as (tx1 & -> & _ & Hc & Hs).
    { rewrite zetKeyBucket_eq. discriminate. }
    rewrite bind_TxOk. rewrite create_existing;
      [| eapply Hs, Bucket_Get_Some_bucket, Hget
       | rewrite zetScoreBucket_eq; discriminate].
    rewrite Bucket_Get_bucket_of, Hc, <- Bucket_Get_bucket_of, Hget.
    by rewrite B2i_short.
Qed.

Lemma incr_panics_on_short_value_witness :
  Hincr "h" (S2b "k") 1 (Hset "h" (S2b "k") (S2b "v1") ∅).1
    = ((Hset "h" (S2b "k") (S2b "v1") ∅).1, Panics) ∧
  Zincr "s" (S2b "k") 1 (Zmset "s" [S2b "k"; S2b "1"] ∅).1
    = ((Zmset "s" [S2b "k"; S2b "1"] ∅).1, Panics).
Proof.
  split.
  - apply (incr_panics_on_short_value "h" (S2b "k") (S2b "v1") 1);
      [simpl; lia | by vm_compute].
  - apply (incr_panics_on_short_value "s" (S2b "k") (S2b "1") 1);
      [simpl; lia | by vm_compute].
Defined.

(** ** Failed calls *)




(** ** Scans from a cursor *)

Lemma seek_from_filter (P : bytes * bytes → Prop) `{∀ e, Decision (P e)}
    (seek : bytes) (before es : list (bytes * bytes)) :
  (∀ e, bytes_Compare e.1 seek = Lt → ¬ P e) →
  filter P (c_from (seek_from seek before es)) = filter P es.
Proof.
  intros HP. revert before. induction es as [|e es IH]; intros before; [done|].
  simpl. case_decide as Hlt; [|done].
  rewrite IH. by rewrite filter_cons_False by by apply HP.
Qed.

Lemma seek_from_Forall (Q : bytes * bytes → Prop) (seek : bytes)
    (before es : list (bytes * bytes)) :
  Forall Q es → Forall Q (c_from (seek_from seek before es)).
Proof.
  revert before. induction es as [|e es IH]; intros before Hall; [done|].
  simpl. case_decide; [|done]. apply IH. by apply Forall_cons in Hall as [_ ?].
Qed.

Lemma seek_from_all_below (seek : bytes) (before es : list (bytes * bytes)) :
  Forall (λ e, bytes_Compare e.1 seek = Lt) es →
  c_from (seek_from seek before es) = [].
Proof.
  revert before. induction es as [|e es IH]; intros before Hall; [done|].
  apply Forall_cons in Hall as [He Hall]. simpl.
  rewrite decide_True by done. by apply IH.
Qed.

Lemma Hscan_loop_spec (keyStart : bytes) (limit : Z) (items : list (bytes * bytes))
    (n : Z) (r : Reply) :
  Hscan_loop keyStart limit items n r =
    let found := filter (λ e, bytes_Compare e.1 keyStart = Gt) items in
    let sel := if decide (n < limit) then take (Z.to_nat (limit - n)) found
               else found in
    mkReply (match sel with [] => State r | _ => replyOK end)
            (Data r ++ flat_map kv_data sel).
Proof.
  revert n r. induction items as [|[k v] rest IH]; intros n r.
  - simpl. rewrite filter_nil. case_decide; simpl; rewrite ?take_nil; simpl;
      rewrite app_nil_r; by destruct r.
  - simpl Hscan_loop. case_decide as Hgt.
    + rewrite filter_cons_True by done. cbv zeta. case_decide as Hn.
      * subst limit. rewrite decide_True by lia.
        replace (Z.to_nat (n + 1 - n)) with 1%nat by lia. simpl.
        by rewrite ?take_0.
      * rewrite IH. cbv zeta. simpl Data.
        destruct (decide (n < limit)) as [Hlt|Hge].
        -- rewrite decide_True by lia.
           replace (Z.to_nat (limit - n)) with (S (Z.to_nat (limit - (n + 1))))
             by lia.
           simpl take. simpl flat_map. rewrite <- app_assoc. simpl.
           by destruct (take _ _).
        -- rewrite decide_False by lia. simpl flat_map.
           rewrite <- app_assoc. simpl. by destruct (filter _ rest).
    + rewrite filter_cons_False by done. apply IH.
Qed.

(** X10: on an existing hashmap, [Hscan] returns the pairs whose key is
    strictly greater than [keyStart], in ascending key order, and only the
    first [limit] of them when [limit] is positive; the status is [ok] when
    a pair is returned and stays [error] when none is. *)
Theorem Hscan_spec (name : string) (keyStart : bytes) (limit : Z) (db : store)
    (b : bucket) :
  db !! hashBucket name = Some b →
  let sel := scan_take limit
               (filter (λ e, bytes_Compare e.1 keyStart = Gt) (Bucket_entries b)) in
  Hscan name keyStart limit db =
    Returns (mkReply (match sel with [] => replyError | _ => replyOK end)
                     (flat_map kv_data sel)) ∧
  StronglySorted key_lt (Bucket_entries b) ∧
  ∀ k v, (k, v) ∈ Bucket_entries b ↔ b !! k = Some v.
Proof.
  intros Hb sel. split; [|split].
  - unfold Hscan, View, tx_Bucket. rewrite Hb.
    unfold Cursor_Next_all, Cursor_Seek. rewrite Hscan_loop_spec. cbv zeta.
    rewrite seek_from_filter by (intros e He; by rewrite He).
    rewrite Z.sub_0_r. simpl Data. simpl State. by simpl app.
  - apply Bucket_entries_strict.
  - intros k v. apply Bucket_entries_elem.
Qed.

Lemma Hscan_spec_witness :
  Hscan "h" (S2b "a") 1
    (<[hashBucket "h" :=
         list_to_map [(S2b "c", S2b "3"); (S2b "a", S2b "1"); (S2b "b", S2b "2")]]>
       ∅)
  = Returns (mkReply replyOK [S2b "b"; S2b "2"]).
Proof.
  pose proof (Hscan_spec "h" (S2b "a") 1 _ _
                (lookup_insert_eq ∅ (hashBucket "h")
                   (list_to_map [(S2b "c", S2b "3"); (S2b "a", S2b "1");
                                 (S2b "b", S2b "2")]))) as [H _].
  etrans; [exact H|]. vm_compute. reflexivity.
Defined.

Lemma Zscan_loop_spec (start : bytes) (limit : Z) (items : list (bytes * bytes))
    (n : Z) (r : Reply) :
  Forall (λ e, (8 ≤ length e.1)%nat) items →
  Zscan_loop start limit items n r =
    let found := filter (λ e, bytes_Compare e.1 start = Gt) items in
    let sel := if decide (n < limit) then take (Z.to_nat (limit - n)) found
               else found in
    Returns (mkReply (match sel with [] => State r | _ => replyOK end)
                     (Data r ++ flat_map split_data sel)).
Proof.
  revert n r. induction items as [|[k v] rest IH]; intros n r Hall.
  - simpl. rewrite filter_nil. case_decide; simpl; rewrite ?take_nil; simpl;
      rewrite app_nil_r; by destruct r.
  - apply Forall_cons in Hall as [Hk Hall]. simpl in Hk.
    simpl Zscan_loop. case_decide as Hgt.
    + rewrite filter_cons_True by done. cbv zeta.
      rewrite decide_False by lia. case_decide as Hn.
      * subst limit. rewrite decide_True by lia.
        replace (Z.to_nat (n + 1 - n)) with 1%nat by lia. simpl.
        by rewrite ?take_0.
      * rewrite IH by done. cbv zeta. simpl Data.
        destruct (decide (n < limit)) as [Hlt|Hge].
        -- rewrite decide_True by lia.
           replace (Z.to_nat (limit - n)) with (S (Z.to_nat (limit - (n + 1))))
             by lia.
           simpl take. simpl flat_map. rewrite <- app_assoc. simpl.
           by destruct (take _ _).
        -- rewrite decide_False by lia. simpl flat_map.
           rewrite <- app_assoc. simpl. by destruct (filter _ rest).
    + rewrite filter_cons_False by done. by apply IH.
Qed.

Lemma bytes_Compare_prefix (a b : bytes) : bytes_Compare a (a ++ b) ≠ Gt.
Proof.
  induction a as [|x a IH]; simpl; [by destruct b|].
  by rewrite Z.compare_refl.
Qed.

(** X11: on a sorted set built by calls with 8-byte scores, [Zscan] from
    the cursor [(keyStart, scoreStart)] returns the (member, score) pairs
    whose composite key is strictly greater than [scoreStart‖keyStart]
    (with the score 0 when [scoreStart] is empty), in ascending composite
    key order, and only the first [limit] of them when [limit] is
    positive; it does not panic, and its status is [ok] exactly when a
    pair is returned. *)
Theorem Zscan_from_cursor (cs : list zcall) (name : string)
    (keyStart scoreStart : bytes) (limit : Z) (zk : bucket) :
  Forall zcall_ok cs →
  zcalls_run cs ∅ !! zetKeyBucket name = Some zk →
  let start :=
    (if decide (scoreStart = []) then I2b scoreMin else scoreStart) ++ keyStart in
  let sel := scan_take limit
               (filter (λ e, bytes_Compare e.1 start = Gt) (Bucket_entries zk)) in
  ∃ rf, Zscan name keyStart scoreStart limit (zcalls_run cs ∅) = Returns rf ∧
    State rf = match sel with [] => replyError | _ => replyOK end ∧
    Reply_List rf = split_entry <$> sel ∧
    StronglySorted key_lt (Bucket_entries zk).
Proof.
  intros Hok Hzk start sel.
  assert (ZInv (zcalls_run cs ∅) name) as Hinv.
  { apply zcalls_run_inv; [done|apply ZInv_empty]. }
  assert (Zscan name keyStart scoreStart limit (zcalls_run cs ∅) =
          Returns (mkReply (match sel with [] => replyError | _ => replyOK end)
                           (flat_map split_data sel))) as Hrun.
  { unfold Zscan, View, tx_Bucket. rewrite Hzk.
    unfold Cursor_Next_all, Cursor_Seek. rewrite Bconcat_pair.
    assert ((if decide (0 < length scoreStart)%nat then scoreStart
             else I2b scoreMin)
            = (if decide (scoreStart = []) then I2b scoreMin else scoreStart))
      as ->.
    { destruct scoreStart; [done|]. rewrite decide_True by (simpl; lia).
      by rewrite decide_False. }
    fold start. rewrite Zscan_loop_spec.
    - cbv zeta. rewrite Z.sub_0_r. rewrite seek_from_filter; [done|].
      intros e He Hgt. subst start.
      eapply bytes_Compare_le_trans; [|apply bytes_Compare_prefix|exact Hgt].
      by rewrite He.
    - apply seek_from_Forall, Forall_forall. intros e He.
      destruct (zkey_entry_shape _ name zk Hinv Hzk e He)
        as (s & m & -> & Hl & _).
      rewrite length_app. lia. }
  eexists. split; [exact Hrun|]. split; [done|]. split.
  - unfold Reply_List. simpl Data. apply List_loop_split.
  - apply Bucket_entries_strict.
Qed.

Lemma Zscan_from_cursor_witness :
  ∃ rf zk,
    Zscan "s" (S2b "bob") (I2b 5) 10
      (zcalls_run [CallZset "s" (S2b "alice") 20; CallZset "s" (S2b "bob") 5] ∅)
      = Returns rf ∧
    Reply_List rf =
      split_entry <$>
        scan_take 10
          (filter (λ e, bytes_Compare e.1 (I2b 5 ++ S2b "bob") = Gt)
             (Bucket_entries zk)).
Proof.
  assert (Forall zcall_ok
            [CallZset "s" (S2b "alice") 20; CallZset "s" (S2b "bob") 5]) as Hok.
  { repeat constructor; simpl; lia. }
  assert (is_Some
            (zcalls_run [CallZset "s" (S2b "alice") 20; CallZset "s" (S2b "bob") 5] ∅
               !! zetKeyBucket "s")) as [zk Hzk].
  { apply is_Some_alt. vm_compute. exact I. }
  destruct (Zscan_from_cursor _ "s" (S2b "bob") (I2b 5) 10 zk Hok Hzk)
    as (rf & Hrun & _ & Hlist & _).
  exists rf, zk. split; [exact Hrun | exact Hlist].
Defined.

(** X12: a reverse scan whose score cursor lies above every composite key
    of the set returns no pair and the status [error], although every pair
    is below the cursor: [Seek] finds no key, and the loop over [Prev]
    never starts. *)
Theorem Zrscan_cursor_past_end (name : string) (keyStart scoreStart : bytes)
    (limit : Z) (db : store) (zk : bucket) :
  db !! zetKeyBucket name = Some zk →
  scoreStart ≠ [] →
  (∀ k v, zk !! k = Some v → bytes_Compare k scoreStart = Lt) →
  Zrscan name keyStart scoreStart limit db = Returns (mkReply replyError []).
Proof.
  intros Hzk Hne Hall. unfold Zrscan, View, tx_Bucket. rewrite Hzk.
  assert (0 < length scoreStart)%nat as Hlen by (destruct scoreStart; [done|simpl; lia]).
  rewrite !(decide_True (P := (0 < length scoreStart)%nat)) by done.
  unfold Cursor_Prev_all, Cursor_Seek. rewrite seek_from_all_below; [done|].
  apply Forall_forall. intros [k v] He. apply Bucket_entries_elem in He.
  by apply (Hall k v).
Qed.

Lemma Zrscan_cursor_past_end_witness :
  Zrscan "s" [] (I2b 9) 10 (<[zetKeyBucket "s" := {[I2b 5 ++ S2b "a" := []]}]> ∅)
    = Returns (mkReply replyError []).
Proof.
  apply (Zrscan_cursor_past_end "s" [] (I2b 9) 10 _ {[I2b 5 ++ S2b "a" := []]}).
  - apply lookup_insert_eq.
  - done.
  - intros k v Hk. apply lookup_singleton_Some in Hk as [<- _]. reflexivity.
Defined.

(** ** Multi-gets and the decoders of their replies *)

Lemma mget_found_cons (b : bucket) (k : bytes) (keys : list bytes) :
  mget_found b (k :: keys) =
    match b !! k with
    | Some v => (k, v) :: mget_found b keys
    | None => mget_found b keys
    end.
Proof. unfold mget_found. simpl. by destruct (b !! k). Qed.

Lemma mget_loop_spec (b : bucket) (keys : list bytes) (r : Reply) :
  mget_loop b keys r =
    mkReply (match mget_found b keys with [] => State r | _ => replyOK end)
            (Data r ++ flat_map kv_data (mget_found b keys)).
Proof.
  revert r. induction keys as [|k keys IH]; intros r.
  - simpl. rewrite app_nil_r. by destruct r.
  - simpl mget_loop. rewrite mget_found_cons.
    destruct (b !! k) as [v|]; [|apply IH].
    rewrite IH. simpl. rewrite <- app_assoc. simpl.
    by destruct (mget_found b keys).
Qed.

Lemma mget_found_elem (b : bucket) (keys : list bytes) (k v : bytes) :
  (k, v) ∈ mget_found b keys ↔ k ∈ keys ∧ b !! k = Some v.
Proof.
  unfold mget_found. rewrite list_elem_of_omap. split.
  - intros (k' & Hin & Hk). destruct (b !! k') as [v'|] eqn:E; [|done].
    simpl in Hk. injection Hk as <- <-. done.
  - intros [Hin Hk]. exists k. split; [done|]. by rewrite Hk.
Qed.

(** X13: [Hmget] and [Zmget] answer [bucket_not_found] on an absent
    namespace; otherwise they return, in the order of the request, the
    (key, value) pair of every requested key that is stored and nothing
    for the others, with status [ok] when a pair is returned and [error]
    when none of the keys is stored. *)
Theorem mget_spec (name : string) (keys : list bytes) (db : store) :
  Hmget name keys db =
    match db !! hashBucket name with
    | None => Returns (mkReply bucketNotFound [])
    | Some b =>
        Returns (mkReply (match mget_found b keys with
                          | [] => replyError
                          | _ => replyOK
                          end)
                         (flat_map kv_data (mget_found b keys)))
    end ∧
  Zmget name keys db =
    match db !! zetScoreBucket name with
    | None => Returns (mkReply bucketNotFound [])
    | Some b =>
        Returns (mkReply (match mget_found b keys with
                          | [] => replyError
                          | _ => replyOK
                          end)
                         (flat_map kv_data (mget_found b keys)))
    end ∧
  ∀ (b : bucket) k v, (k, v) ∈ mget_found b keys ↔ k ∈ keys ∧ b !! k = Some v.
Proof.
  split; [|split].
  - unfold Hmget, View, tx_Bucket.
    destruct (db !! hashBucket name) as [b|]; [|done].
    by rewrite mget_loop_spec.
  - unfold Zmget, View, tx_Bucket.
    destruct (db !! zetScoreBucket name) as [b|]; [|done].
    by rewrite mget_loop_spec.
  - intros b k v. apply mget_found_elem.
Qed.

Lemma B2s_inj (a b : bytes) : B2s a = B2s b → a = b.
Proof.
  unfold B2s. intros H. apply (f_equal list_byte_of_string) in H.
  by rewrite !list_byte_of_string_of_list_byte in H.
Qed.

Lemma List_Dict_loop (s : string) (data : list bytes) :
  (∀ d, Dict_loop data d !! s =
     match last (filter (λ e, B2s (Key e) = s) (List_loop data)) with
     | Some e => Some (Value e)
     | None => d !! s
     end) ∧
  (∀ x d, Dict_loop (x :: data) d !! s =
     match last (filter (λ e, B2s (Key e) = s) (List_loop (x :: data))) with
     | Some e => Some (Value e)
     | None => d !! s
     end).
Proof.
  induction data as [|v rest [IH1 IH2]]; [done|].
  split; [apply IH2|]. intros k d. simpl. rewrite IH1.
  destruct (decide (B2s k = s)) as [Hk|Hk].
  - rewrite filter_cons_True by done.
    destruct (filter _ (List_loop rest)) as [|e l] eqn:E.
    + simpl. by rewrite Hk, lookup_insert_eq.
    + rewrite last_cons_cons. destruct (last (e :: l)) eqn:El; [done|].
      by apply last_None in El.
  - rewrite filter_cons_False by done.
    destruct (last _); [done|]. by rewrite lookup_insert_ne.
Qed.

(** X14: [Reply.Dict] maps a string to the value of the last pair of
    [Reply.List] whose key is that string, and holds no other string: on
    duplicate keys the last pair wins, and a trailing element without a
    partner is ignored by both decoders. *)
Theorem Reply_Dict_last (r : Reply) (s : string) :
  Reply_Dict r !! s =
    Value <$> last (filter (λ e, B2s (Key e) = s) (Reply_List r)).
Proof.
  unfold Reply_Dict, Reply_List.
  rewrite (proj1 (List_Dict_loop s (Data r))).
  destruct (last _); [done|]. by rewrite lookup_empty.
Qed.

(** X15: [Reply.List] pairs the elements of the data two by two: its entry
    [i] is made of the elements [2i] and [2i+1], and there is no entry for
    an index whose second element is missing. *)
Theorem Reply_List_lookup (r : Reply) (i : nat) :
  Reply_List r !! i =
    match Data r !! (2 * i)%nat, Data r !! (2 * i + 1)%nat with
    | Some k, Some v => Some (mkEntry k v)
    | _, _ => None
    end.
Proof.
  unfold Reply_List. generalize (Data r). clear r.
  induction i as [|i IH]; intros data.
  - by destruct data as [|k [|v rest]].
  - destruct data as [|k [|v rest]]; [done|done|].
    replace (2 * S i)%nat with (S (S (2 * i))) by lia.
    replace (S (S (2 * i)) + 1)%nat with (S (S (2 * i + 1))) by lia.
    simpl List_loop. rewrite lookup_cons_ne_0 by done. simpl. apply IH.
Qed.

(** X16: decoding the reply of [Hmget] with [Reply.Dict] gives, for every
    requested key, exactly what the hashmap stores under it. *)
Theorem Hmget_Dict (name : string) (keys : list bytes) (db : store) (b : bucket) :
  db !! hashBucket name = Some b →
  ∃ r, Hmget name keys db = Returns r ∧
    ∀ k, k ∈ keys → Reply_Dict r !! B2s k = b !! k.
Proof.
  intros Hb. eexists. split.
  { rewrite (proj1 (mget_spec name keys db)), Hb. reflexivity. }
  intros k Hin. rewrite Reply_Dict_last. unfold Reply_List. simpl Data.
  assert (List_loop (flat_map kv_data (mget_found b keys))
          = (λ e, mkEntry e.1 e.2) <$> mget_found b keys) as ->.
  { induction (mget_found b keys) as [|e l IH]; [done|]. simpl. by rewrite IH. }
  destruct (b !! k) as [v|] eqn:Ek.
  - assert (Forall (λ e, Value e = v)
              (filter (λ e, B2s (Key e) = B2s k)
                 ((λ e, mkEntry e.1 e.2) <$> mget_found b keys))) as Hall.
    { apply Forall_forall. intros e He. apply list_elem_of_filter in He as [Hs He].
      apply list_elem_of_fmap in He as ([k' v'] & -> & He). simpl in *.
      apply mget_found_elem in He as [_ Hk']. apply B2s_inj in Hs. subst k'.
      congruence. }
    assert (mkEntry k v ∈ filter (λ e, B2s (Key e) = B2s k)
              ((λ e, mkEntry e.1 e.2) <$> mget_found b keys)) as Hmem.
    { apply list_elem_of_filter. split; [done|].
      apply list_elem_of_fmap. exists (k, v). split; [done|].
      by apply mget_found_elem. }
    destruct (last _) as [e|] eqn:El.
    + simpl. f_equal. apply last_Some_elem_of in El.
      rewrite Forall_forall in Hall. by apply Hall.
    + apply last_None in El. rewrite El in Hmem. by apply elem_of_nil in Hmem.
  - destruct (last _) as [e|] eqn:El; [|done]. exfalso.
    apply last_Some_elem_of, list_elem_of_filter in El as [Hs He].
    apply list_elem_of_fmap in He as ([k' v'] & -> & He). simpl in *.
    apply mget_found_elem in He as [_ Hk']. apply B2s_inj in Hs. subst k'.
    congruence.
Qed.

Lemma Hmget_Dict_witness :
  ∃ r, Hmget "h" [S2b "b"; S2b "x"]
         (<[hashBucket "h" := {[S2b "b" := S2b "2"]}]> ∅) = Returns r ∧
    ∀ k, k ∈ [S2b "b"; S2b "x"] →
      Reply_Dict r !! B2s k = ({[S2b "b" := S2b "2"]} : bucket) !! k.
Proof.
  apply (Hmget_Dict "h" [S2b "b"; S2b "x"] _ {[S2b "b" := S2b "2"]}).
  apply lookup_insert_eq.
Defined.

(** ** Sorted-set point operations *)

Lemma Zget_spec (name : string) (key : bytes) (db : store) :
  Zget name key db =
    match db !! zetScoreBucket name with
    | None => Returns (mkReply bucketNotFound [])
    | Some b =>
        match b !! key with
        | Some v => Returns (mkReply replyOK [v])
        | None => Returns (mkReply keyNotFound [])
        end
    end.
Proof.
  unfold Zget, View, tx_Bucket.
  destruct (db !! zetScoreBucket name) as [b|]; [|done].
  by destruct (b !! key).
Qed.

Lemma Zget_bucket_of (name : string) (key : bytes) (db : store) :
  is_Some (db !! zetScoreBucket name) →
  Zget name key db =
    match bucket_of db (zetScoreBucket name) !! key with
    | Some v => Returns (mkReply replyOK [v])
    | None => Returns (mkReply keyNotFound [])
    end.
Proof. intros [b Hb]. rewrite Zget_spec. unfold bucket_of. by rewrite Hb. Qed.

(** The transaction state a successful [zset_pair] leaves: both buckets
    exist and the member carries the new score. *)
Lemma zset_pair_stored (kb sb key score : bytes) (tx tx' : store) :
  kb ≠ sb → score ≠ [] →
  is_Some (tx !! kb) → is_Some (tx !! sb) →
  zset_pair kb sb key score tx = TxOk tx' →
  is_Some (tx' !! kb) ∧ is_Some (tx' !! sb) ∧
  bucket_of tx' sb !! key = Some score ∧
  ∀ m, m ≠ key → bucket_of tx' sb !! m = bucket_of tx sb !! m.
Proof.
  intros Hne Hsc Hk Hs H. unfold zset_pair in H.
  destruct (bytes_Equal (Bucket_Get sb key tx) (Some score)) eqn:Eeq;
    simpl negb in H; cbv iota in H.
  - injection H as <-. split; [done|]. split; [done|]. split; [|done].
    apply bool_decide_eq_true in Eeq. simpl in Eeq.
    rewrite <- Bucket_Get_bucket_of.
    destruct (Bucket_Get sb key tx); simpl in Eeq; congruence.
  - apply index_write_spec in H as (_ & _ & Hb2 & _ & Hk' & Hs'); [|done..].
    split; [done|]. split; [done|]. rewrite Hb2. split.
    + apply lookup_insert_eq.
    + intros m Hm. by rewrite lookup_insert_ne.
Qed.

Lemma zset_pair_ok (kb sb key score : bytes) (tx : store) :
  key ≠ [] → Z.of_nat (length (score ++ key)) ≤ MaxKeySize →
  ∃ tx', zset_pair kb sb key score tx = TxOk tx'.
Proof.
  intros Hk Hl. unfold zset_pair.
  destruct (negb _); [|eauto]. rewrite Bconcat_pair.
  rewrite length_app in Hl.
  rewrite Put_ok, bind_TxOk;
    [|destruct score; by destruct key|rewrite length_app; lia|by vm_compute].
  rewrite Put_ok, bind_TxOk; [|done|lia|unfold MaxKeySize, MaxValueSize in *; lia].
  destruct (Bucket_Get sb key tx); unfold Bucket_Delete; eauto.
Qed.

(** X17: [Zset] of a non-empty member whose composite key is within
    Bolt's key size returns no error; [Zget] of the member then returns
    [ok] with the 8-byte encoding of the score, which [Reply.Uint64]
    decodes to the score, and [Zget] of every other member of the set
    finds the score it had before. *)
Theorem Zset_Zget (name : string) (key : bytes) (val : Z) (db : store) :
  key ≠ [] → 8 + Z.of_nat (length key) ≤ MaxKeySize →
  0 ≤ val ≤ scoreMax →
  (Zset name key val db).2 = Returns err_nil ∧
  Zget name key (Zset name key val db).1 = Returns (mkReply replyOK [I2b val]) ∧
  outcome_bind (Zget name key (Zset name key val db).1) Reply_Uint64 = Returns val ∧
  ∀ m v, m ≠ key → Bucket_Get (zetScoreBucket name) m db = Some v →
    Zget name m (Zset name key val db).1 = Returns (mkReply replyOK [v]).
Proof.
  intros Hk Hl Hval. unfold Zset, Update.
  destruct (create_spec (zetKeyBucket name) db) as (tx1 & -> & Hs1 & Hc1 & Hp1).
  { rewrite zetKeyBucket_eq. discriminate. }
  rewrite bind_TxOk.
  destruct (create_spec (zetScoreBucket name) tx1) as (tx2 & -> & Hs2 & Hc2 & Hp2).
  { rewrite zetScoreBucket_eq. discriminate. }
  rewrite bind_TxOk.
  destruct (zset_pair_ok (zetKeyBucket name) (zetScoreBucket name) key (I2b val) tx2)
    as [tx' E]; [done|rewrite length_app; simpl length; lia|].
  rewrite E. simpl.
  apply zset_pair_stored in E as (_ & Hs' & Hkey & Hother);
    [|apply zetKey_ne_zetScore|done|by apply Hp2|done].
  split; [done|].
  assert (Zget name key tx' = Returns (mkReply replyOK [I2b val])) as Hz.
  { by rewrite Zget_bucket_of, Hkey. }
  split; [done|]. split.
  - rewrite Hz. simpl. rewrite Reply_Uint64_I2b. unfold u64.
    rewrite Z.mod_small; [done|]. unfold scoreMax in Hval. lia.
  - intros m v Hm Hv. rewrite Zget_bucket_of, Hother, Hc2, Hc1 by done.
    by rewrite <- Bucket_Get_bucket_of, Hv.
Qed.

Lemma Zset_Zget_witness :
  Zget "s" (S2b "alice") (Zset "s" (S2b "alice") 10 ∅).1
    = Returns (mkReply replyOK [I2b 10]).
Proof.
  assert (S2b "alice" ≠ []) as H1 by done.
  assert (8 + Z.of_nat (length (S2b "alice")) ≤ MaxKeySize) as H2 by (by vm_compute).
  assert (0 ≤ 10 ≤ scoreMax) as H3 by (unfold scoreMax; lia).
  exact (proj1 (proj2 (Zset_Zget "s" (S2b "alice") 10 ∅ H1 H2 H3))).
Defined.

(** X18: [Zset] is idempotent: calling it again with the same member and
    score on the store it left returns the same result and leaves that
    store as it is, since the stored score equals the new one. *)
Theorem Zset_idempotent (name : string) (key : bytes) (val : Z) (db : store) :
  Zset name key val (Zset name key val db).1 = Zset name key val db.
Proof.
  destruct (create_spec (zetKeyBucket name) db) as (tx1 & E1 & Hs1 & Hc1 & Hp1).
  { rewrite zetKeyBucket_eq. discriminate. }
  destruct (create_spec (zetScoreBucket name) tx1) as (tx2 & E2 & Hs2 & Hc2 & Hp2).
  { rewrite zetScoreBucket_eq. discriminate. }
  assert (Zset name key val db =
          match zset_pair (zetKeyBucket name) (zetScoreBucket name) key (I2b val) tx2
          with
          | TxOk tx => (tx, Returns err_nil)
          | TxErr msg => (db, Returns (errors_New msg))
          | TxPanic => (db, Panics)
          end) as Hrun.
  { unfold Zset, Update. by rewrite E1, bind_TxOk, E2, bind_TxOk. }
  destruct (zset_pair _ _ key (I2b val) tx2) as [tx'| |] eqn:E;
    rewrite Hrun; simpl; [|exact Hrun|exact Hrun].
  apply zset_pair_stored in E as (Hk' & Hs' & Hkey & _);
    [|apply zetKey_ne_zetScore|done|by apply Hp2|done].
  unfold Zset, Update.
  rewrite create_existing; [|done|rewrite zetKeyBucket_eq; discriminate].
  rewrite bind_TxOk.
  rewrite create_existing; [|done|rewrite zetScoreBucket_eq; discriminate].
  rewrite bind_TxOk. unfold zset_pair.
  rewrite Bucket_Get_bucket_of, Hkey.
  assert (bytes_Equal (Some (I2b val)) (Some (I2b val)) = true) as ->
    by (by apply bool_decide_eq_true).
  done.
Qed.

(** X19: on a sorted set whose two namespaces exist, [Zdel] returns no
    error; afterwards [Zget] of the member answers [key_not_found], the
    composite key of its old score is gone from the score index, and every
    other member keeps its score. *)
Theorem Zdel_Zget (name : string) (key : bytes) (db : store) :
  is_Some (db !! zetKeyBucket name) → is_Some (db !! zetScoreBucket name) →
  (Zdel name key db).2 = Returns err_nil ∧
  Zget name key (Zdel name key db).1 = Returns (mkReply keyNotFound []) ∧
  (∀ old, Bucket_Get (zetScoreBucket name) key db = Some old →
     Bucket_Get (zetKeyBucket name) (old ++ key) (Zdel name key db).1 = None) ∧
  ∀ m, m ≠ key → Zget name m (Zdel name key db).1 = Zget name m db.
Proof.
  intros Hk Hs. unfold Zdel, Update, tx_Bucket.
  destruct Hk as [zk Hzk]. destruct Hs as [zs Hzs]. rewrite Hzk, Hzs.
  destruct (Bucket_Get (zetScoreBucket name) key db) as [old|] eqn:Eg.
  - rewrite Bconcat_pair.
    destruct (delete_spec (zetKeyBucket name) (old ++ key) db)
      as (tx1 & -> & Hb1 & Hf1 & Hs1); [by eauto|].
    rewrite bind_TxOk.
    destruct (delete_spec (zetScoreBucket name) key tx1)
      as (tx2 & -> & Hb2 & Hf2 & Hs2); [by eauto|].
    simpl. split; [done|].
    assert (is_Some (tx2 !! zetScoreBucket name)) as Hs' by eauto.
    split; [|split].
    + by rewrite Zget_bucket_of, Hb2, lookup_delete_eq.
    + intros old' [= <-]. rewrite Bucket_Get_bucket_of.
      rewrite Hf2 by apply zetKey_ne_zetScore.
      by rewrite Hb1, lookup_delete_eq.
    + intros m Hm. rewrite !Zget_bucket_of by eauto.
      rewrite Hb2, lookup_delete_ne by done.
      by rewrite Hf1 by (intros H; symmetry in H; by apply zetKey_ne_zetScore in H).
  - simpl. split; [done|].
    rewrite Bucket_Get_bucket_of in Eg. split; [|split].
    + by rewrite Zget_bucket_of, Eg by eauto.
    + discriminate.
    + done.
Qed.

Lemma Zdel_Zget_witness :
  Zget "s" (S2b "a")
    (Zdel "s" (S2b "a")
       (<[zetKeyBucket "s" := {[I2b 5 ++ S2b "a" := []]}]>
          (<[zetScoreBucket "s" := {[S2b "a" := I2b 5]}]> ∅))).1
  = Returns (mkReply keyNotFound []).
Proof.
  apply (Zdel_Zget "s" (S2b "a")
           (<[zetKeyBucket "s" := {[I2b 5 ++ S2b "a" := []]}]>
              (<[zetScoreBucket "s" := {[S2b "a" := I2b 5]}]> ∅))).
  - rewrite lookup_insert_eq. eauto.
  - rewrite lookup_insert_ne by apply zetKey_ne_zetScore.
    rewrite lookup_insert_eq. eauto.
Defined.

(** X20: [ZdelBucket] drops both namespaces of a sorted set or neither:
    when both exist they are removed and no error is returned, after which
    [Zget] answers [bucket_not_found]; when either is missing the call
    returns Bolt's "bucket not found" and the store is as before, so a
    score index deleted before the failure is restored. *)
Theorem ZdelBucket_spec (name : string) (db : store) :
  match db !! zetKeyBucket name, db !! zetScoreBucket name with
  | Some _, Some _ =>
      (ZdelBucket name db).2 = Returns err_nil ∧
      (ZdelBucket name db).1 !! zetKeyBucket name = None ∧
      (ZdelBucket name db).1 !! zetScoreBucket name = None ∧
      ∀ key, Zget name key (ZdelBucket name db).1
               = Returns (mkReply bucketNotFound [])
  | _, _ => ZdelBucket name db = (db, Returns (errors_New "bucket not found"))
  end.
Proof.
  unfold ZdelBucket, Update, tx_DeleteBucket.
  destruct (db !! zetKeyBucket name) as [zk|] eqn:Ek; [|by destruct (db !! _)].
  rewrite bind_TxOk.
  rewrite lookup_delete_ne by apply zetKey_ne_zetScore.
  destruct (db !! zetScoreBucket name) as [zs|] eqn:Es; [|done].
  simpl. split; [done|]. split; [|split].
  - rewrite lookup_delete_ne
      by (intros H; symmetry in H; by apply zetKey_ne_zetScore in H).
    apply lookup_delete_eq.
  - apply lookup_delete_eq.
  - intros key. by rewrite Zget_spec, lookup_delete_eq.
Qed.



(** X22: [Hrscan] never returns the status [ok]: on an existing namespace
    it panics whatever the keys, the start and the limit are, and on an
    absent namespace it returns the initial status [error] without data,
    not [bucket_not_found]. *)
Theorem Hrscan_outcome (name : string) (keyStart : bytes) (limit : Z) (db : store) :
  Hrscan name keyStart limit db =
    match tx_Bucket (hashBucket name) db with
    | Some _ => Panics
    | None => Returns (mkReply replyError [])
    end.
Proof.
  unfold Hrscan, View. by destruct (tx_Bucket (hashBucket name) db).
Qed.

(** ** Namespaces a call touches *)

Lemma only_touches_refl (bs : list bytes) (db : store) : only_touches bs db db.
Proof. by intros b _. Qed.

Lemma only_touches_trans (bs : list bytes) (a b c : store) :
  only_touches bs a b → only_touches bs b c → only_touches bs a c.
Proof. intros H1 H2 x Hx. by rewrite H2, H1. Qed.

Lemma bind_TxOk_inv {A B : Type} (m : txres A) (f : A → txres B) (y : B) :
  m ≫= f = TxOk y → ∃ x, m = TxOk x ∧ f x = TxOk y.
Proof. destruct m as [x| |]; [eauto|done|done]. Qed.

Lemma create_touches (bs : list bytes) (b : bytes) (tx tx' : store) :
  b ∈ bs → tx_CreateBucketIfNotExists b tx = TxOk tx' → only_touches bs tx tx'.
Proof.
  intros Hb H x Hx. unfold tx_CreateBucketIfNotExists in H.
  destruct b as [|y b]; [done|].
  destruct (tx !! (y :: b)); injection H as <-; [done|].
  apply lookup_insert_ne. by intros <-.
Qed.

Lemma put_touches (bs : list bytes) (b key value : bytes) (tx tx' : store) :
  b ∈ bs → Bucket_Put b key value tx = TxOk tx' → only_touches bs tx tx'.
Proof.
  intros Hb H x Hx. unfold Bucket_Put in H.
  repeat case_decide; try done. injection H as <-.
  apply lookup_alter_ne. by intros <-.
Qed.

Lemma delete_touches (bs : list bytes) (b key : bytes) (tx tx' : store) :
  b ∈ bs → Bucket_Delete b key tx = TxOk tx' → only_touches bs tx tx'.
Proof.
  intros Hb [= <-] x Hx. apply lookup_alter_ne. by intros <-.
Qed.

Lemma DeleteBucket_touches (bs : list bytes) (b : bytes) (tx tx' : store) :
  b ∈ bs → tx_DeleteBucket b tx = TxOk tx' → only_touches bs tx tx'.
Proof.
  intros Hb H x Hx. unfold tx_DeleteBucket in H.
  destruct (tx !! b); [|done]. injection H as <-.
  apply lookup_delete_ne. by intros <-.
Qed.

Lemma Update_touches (bs : list bytes) (fn : store → txres store) (db : store) :
  (∀ tx', fn db = TxOk tx' → only_touches bs db tx') →
  only_touches bs db (Update fn db).1.
Proof.
  intros H. unfold Update. destruct (fn db); simpl;
    [by apply H | apply only_touches_refl | apply only_touches_refl].
Qed.

Lemma Update_with_touches {R : Type} (bs : list bytes)
    (fn : store → R * txres store) (db : store) :
  (∀ r tx', fn db = (r, TxOk tx') → only_touches bs db tx') →
  only_touches bs db (Update_with fn db).1.
Proof.
  intros H. unfold Update_with. destruct (fn db) as [r [tx| |]]; simpl;
    [by eapply H | apply only_touches_refl | apply only_touches_refl].
Qed.

Lemma index_write_touches (bs : list bytes) (kb sb key score : bytes)
    (old : option bytes) (tx tx' : store) :
  kb ∈ bs → sb ∈ bs →
  (tx1 ← Bucket_Put kb (Bconcat [score; key]) [] tx;
   tx2 ← Bucket_Put sb key score tx1;
   match old with
   | Some o => Bucket_Delete kb (Bconcat [o; key]) tx2
   | None => TxOk tx2
   end) = TxOk tx' →
  only_touches bs tx tx'.
Proof.
  intros Hk Hs H.
  apply bind_TxOk_inv in H as (tx1 & H1 & H).
  apply bind_TxOk_inv in H as (tx2 & H2 & H).
  eapply only_touches_trans;
    [eapply put_touches; [|eassumption]; assumption|].
  eapply only_touches_trans;
    [eapply put_touches; [|eassumption]; assumption|].
  destruct old; [(eapply delete_touches; [|eassumption]; assumption)|].
  injection H as <-. apply only_touches_refl.
Qed.

Lemma zset_pair_touches (bs : list bytes) (kb sb key score : bytes)
    (tx tx' : store) :
  kb ∈ bs → sb ∈ bs → zset_pair kb sb key score tx = TxOk tx' →
  only_touches bs tx tx'.
Proof.
  intros Hk Hs H. unfold zset_pair in H. destruct (negb _).
  - (eapply index_write_touches; [| |eassumption]; assumption).
  - injection H as <-. apply only_touches_refl.
Qed.

Lemma Hmset_loop_touches (bs : list bytes) (b : bytes) (kvs : list bytes) :
  b ∈ bs →
  (∀ tx tx', Hmset_loop b kvs tx = TxOk tx' → only_touches bs tx tx') ∧
  (∀ k tx tx', Hmset_loop b (k :: kvs) tx = TxOk tx' → only_touches bs tx tx').
Proof.
  intros Hb. induction kvs as [|v rest [IH1 IH2]].
  - split; [intros tx tx' [= <-]|intros k tx tx' [= <-]];
      apply only_touches_refl.
  - split; [apply IH2|]. intros k tx tx' H. simpl in H.
    apply bind_TxOk_inv in H as (tx1 & H1 & H).
    eapply only_touches_trans;
      [eapply put_touches; [|eassumption]; assumption|eapply IH1; eassumption].
Qed.

Lemma Zmset_loop_touches (bs : list bytes) (kb sb : bytes) (kvs : list bytes) :
  kb ∈ bs → sb ∈ bs →
  (∀ tx tx', Zmset_loop kb sb kvs tx = TxOk tx' → only_touches bs tx tx') ∧
  (∀ k tx tx', Zmset_loop kb sb (k :: kvs) tx = TxOk tx' → only_touches bs tx tx').
Proof.
  intros Hk Hs. induction kvs as [|v rest [IH1 IH2]].
  - split; [intros tx tx' [= <-]|intros k tx tx' [= <-]];
      apply only_touches_refl.
  - split; [apply IH2|]. intros k tx tx' H. simpl in H.
    apply bind_TxOk_inv in H as (tx1 & H1 & H).
    eapply only_touches_trans;
      [eapply zset_pair_touches; [| |eassumption]; assumption
      |eapply IH1; eassumption].
Qed.

Lemma bucket_names_apart (n1 n2 : string) :
  hashBucket n1 ≠ zetKeyBucket n2 ∧ hashBucket n1 ≠ zetScoreBucket n2 ∧
  zetKeyBucket n1 ≠ zetScoreBucket n2 ∧
  (n1 ≠ n2 → hashBucket n1 ≠ hashBucket n2 ∧
             zetKeyBucket n1 ≠ zetKeyBucket n2 ∧
             zetScoreBucket n1 ≠ zetScoreBucket n2).
Proof.
  rewrite !hashBucket_eq, !zetKeyBucket_eq, !zetScoreBucket_eq.
  split; [done|]. split; [done|]. split; [done|].
  intros Hne. split; [|split]; intros [= H]; by apply S2b_inj in H.
Qed.

(** X23: every hashmap call leaves all namespaces other than the hashmap's
    own as they were, and every sorted-set call leaves all namespaces other
    than the set's two index namespaces as they were, whether it succeeds
    or fails.  The namespace names of the three families never coincide,
    and within a family they differ for different names, so a hashmap and a
    sorted set of the same name, or two structures of different names,
    never interfere. *)
Theorem calls_touch_own_namespaces (name : string) (db : store) :
  let hb := [hashBucket name] in
  let zb := [zetKeyBucket name; zetScoreBucket name] in
  (∀ key val, only_touches hb db (Hset name key val db).1) ∧
  (∀ kvs, only_touches hb db (Hmset name kvs db).1) ∧
  (∀ key step, only_touches hb db (Hincr name key step db).1) ∧
  (∀ key, only_touches hb db (Hdel name key db).1) ∧
  only_touches hb db (HdelBucket name db).1 ∧
  (∀ key val, only_touches zb db (Zset name key val db).1) ∧
  (∀ kvs, only_touches zb db (Zmset name kvs db).1) ∧
  (∀ key step, only_touches zb db (Zincr name key step db).1) ∧
  (∀ key, only_touches zb db (Zdel name key db).1) ∧
  only_touches zb db (ZdelBucket name db).1 ∧
  (∀ n, (hashBucket n ∉ zb) ∧ (zetKeyBucket n ∉ hb) ∧ (zetScoreBucket n ∉ hb)) ∧
  (∀ n, n ≠ name →
     (hashBucket n ∉ hb) ∧ (zetKeyBucket n ∉ zb) ∧ (zetScoreBucket n ∉ zb)).
Proof.
  intros hb zb.
  assert (hashBucket name ∈ hb) as Hh by (by left).
  assert (zetKeyBucket name ∈ zb) as Hk by (by left).
  assert (zetScoreBucket name ∈ zb) as Hs by (right; by left).
  assert (∀ x a : bytes, x ≠ a → x ∉ [a]) as Hn1.
  { intros x a Hxa. apply not_elem_of_cons. split; [done|apply not_elem_of_nil]. }
  assert (∀ x a c : bytes, x ≠ a → x ≠ c → x ∉ [a; c]) as Hn2.
  { intros x a c Hxa Hxc. apply not_elem_of_cons. split; [done|by apply Hn1]. }
  repeat apply conj.
  - intros key val. apply Update_touches. intros tx' H.
    apply bind_TxOk_inv in H as (tx1 & H1 & H).
    eapply only_touches_trans; 
      [eapply create_touches; [|eassumption]; assumption
      |eapply put_touches; [|eassumption]; assumption].
  - intros kvs. unfold Hmset. case_decide as Hd; [apply only_touches_refl|].
    apply Update_touches. intros tx' H.
    apply bind_TxOk_inv in H as (tx1 & H1 & H).
    eapply only_touches_trans;
      [eapply create_touches; [|eassumption]; assumption|].
    eapply (proj1 (Hmset_loop_touches hb _ kvs Hh)); eassumption.
  - intros key step. apply Update_with_touches. intros r tx' H.
    unfold Hincr_tx in H.
    destruct (tx_CreateBucketIfNotExists _ db) as [tx1| |] eqn:E1; try done.
    destruct (match Bucket_Get _ key tx1 with Some _ => _ | None => _ end);
      [|done].
    destruct (incr_overflows step a); [done|].
    destruct (Bucket_Put _ key _ tx1) as [tx2| |] eqn:E2; try done.
    injection H as _ <-.
    eapply only_touches_trans; 
      [eapply create_touches; [|eassumption]; assumption
      |eapply put_touches; [|eassumption]; assumption].
  - intros key. apply Update_touches. intros tx' H.
    destruct (tx_Bucket _ db); [(eapply delete_touches; [|eassumption]; assumption)|].
    injection H as <-. apply only_touches_refl.
  - apply Update_touches. intros tx' H. (eapply DeleteBucket_touches; [|eassumption]; assumption).
  - intros key val. apply Update_touches. intros tx' H.
    apply bind_TxOk_inv in H as (tx1 & H1 & H).
    apply bind_TxOk_inv in H as (tx2 & H2 & H).
    eapply only_touches_trans;
      [eapply create_touches; [|eassumption]; assumption|].
    eapply only_touches_trans;
      [eapply create_touches; [|eassumption]; assumption|].
    (eapply zset_pair_touches; [| |eassumption]; assumption).
  - intros kvs. unfold Zmset. case_decide as Hd; [apply only_touches_refl|].
    apply Update_touches. intros tx' H.
    apply bind_TxOk_inv in H as (tx1 & H1 & H).
    apply bind_TxOk_inv in H as (tx2 & H2 & H).
    eapply only_touches_trans;
      [eapply create_touches; [|eassumption]; assumption|].
    eapply only_touches_trans;
      [eapply create_touches; [|eassumption]; assumption|].
    eapply (proj1 (Zmset_loop_touches zb _ _ kvs Hk Hs)); eassumption.
  - intros key step. apply Update_with_touches. intros r tx' H.
    unfold Zincr_tx in H.
    destruct (tx_CreateBucketIfNotExists _ db ≫= _) as [tx2| |] eqn:E; try done.
    apply bind_TxOk_inv in E as (tx1 & E1 & E2).
    destruct (match Bucket_Get _ key tx2 with Some _ => _ | None => _ end);
      [|done].
    destruct (incr_overflows step a); [done|].
    injection H as _ H.
    eapply only_touches_trans;
      [eapply create_touches; [|eassumption]; assumption|].
    eapply only_touches_trans;
      [eapply create_touches; [|eassumption]; assumption|].
    exact (index_write_touches zb _ _ key (I2b (u64 (a + step)))
             (Bucket_Get (zetScoreBucket name) key tx2) tx2 tx' Hk Hs H).
  - intros key. apply Update_touches. intros tx' H.
    destruct (tx_Bucket _ db); [|injection H as <-; apply only_touches_refl].
    destruct (tx_Bucket _ db); [|injection H as <-; apply only_touches_refl].
    destruct (Bucket_Get _ key db);
      [|injection H as <-; apply only_touches_refl].
    apply bind_TxOk_inv in H as (tx1 & H1 & H).
    eapply only_touches_trans; (eapply delete_touches; [|eassumption]; assumption).
  - apply Update_touches. intros tx' H.
    apply bind_TxOk_inv in H as (tx1 & H1 & H).
    eapply only_touches_trans; (eapply DeleteBucket_touches; [|eassumption]; assumption).
  - intros n. destruct (bucket_names_apart n name) as (? & ? & _).
    destruct (bucket_names_apart name n) as (? & ? & _).
    split; [by apply Hn2|]. split; apply Hn1; congruence.
  - intros n Hne. destruct (bucket_names_apart n name) as (_ & _ & ? & H').
    destruct (bucket_names_apart name n) as (_ & _ & ? & _).
    destruct (H' Hne) as (? & ? & ?).
    split; [by apply Hn1|]. split; apply Hn2; congruence.
Qed.


(** ** The overflow boundary and multi-set of scores *)

(** X24: for a positive step on a stored number, [Hincr] on a non-empty
    key returns the overflow error exactly when the stored number plus the
    step exceeds [2^64-1]. *)
Theorem Hincr_overflow_iff (name : string) (key stored : bytes) (step old : Z)
    (db : store) :
  key ≠ [] → Z.of_nat (length key) ≤ MaxKeySize →
  0 < step ≤ scoreMax →
  Bucket_Get (hashBucket name) key db = Some stored →
  B2i stored = Returns old →
  (Hincr name key step db).2 = Returns (0, errors_New "overflow number") ↔
  scoreMax < old + step.
Proof.
  intros Hk Hkl Hstep Hget Hdec.
  assert (0 ≤ old ≤ scoreMax) as Hold.
  { destruct (decide (length stored < 8)%nat) as [Hs|Hs].
    - by rewrite (B2i_short stored Hs) in Hdec.
    - unfold B2i in Hdec.
      rewrite BigEndian_Uint64_be in Hdec by lia. injection Hdec as <-.
      pose proof (be_val_range (take 8 stored)) as Hr.
      rewrite length_take, Nat.min_l in Hr by lia. unfold scoreMax. lia. }
  destruct (incr_overflows step old) eqn:Hov.
  - rewrite (Hincr_guard name key stored step old db Hget Hdec Hov). simpl.
    split; [intros _|done].
    unfold incr_overflows, u64, scoreMax in *.
    rewrite decide_True in Hov by lia. apply bool_decide_eq_true in Hov.
    rewrite Z.mod_small in Hov by lia. lia.
  - assert (old + step ≤ scoreMax) as Hfit.
    { unfold incr_overflows, u64, scoreMax in *.
      rewrite decide_True in Hov by lia. apply bool_decide_eq_false in Hov.
      rewrite Z.mod_small in Hov by lia. lia. }
    split; [|lia]. unfold Hincr, Update_with, Hincr_tx.
    rewrite create_existing;
      [| by eapply Bucket_Get_Some_bucket | apply hashBucket_ne_nil].
    rewrite Hget, Hdec, Hov.
    rewrite Put_ok by (done || by vm_compute). simpl. intros [= Hz _].
Qed.

Lemma Hincr_overflow_iff_witness :
  (Hincr "h" (S2b "k") 6 (Hset "h" (S2b "k") (I2b (scoreMax - 5)) ∅).1).2
    = Returns (0, errors_New "overflow number") ↔
  scoreMax < scoreMax - 5 + 6.
Proof.
  apply (Hincr_overflow_iff "h" (S2b "k") (I2b (scoreMax - 5)) 6 (scoreMax - 5));
    [done | by vm_compute | by vm_compute | by vm_compute | by vm_compute].
Defined.

Lemma Zmset_loop_stored (kb sb : bytes) (kvs : list bytes) :
  kb ≠ sb →
  (∀ tx tx', is_Some (tx !! kb) → is_Some (tx !! sb) →
     Forall (λ s, s ≠ []) (kvs_scores kvs) →
     Zmset_loop kb sb kvs tx = TxOk tx' →
     is_Some (tx' !! sb) ∧
     ∀ k, bucket_of tx' sb !! k =
            match kvs_last k kvs with
            | Some s => Some s
            | None => bucket_of tx sb !! k
            end) ∧
  (∀ x tx tx', is_Some (tx !! kb) → is_Some (tx !! sb) →
     Forall (λ s, s ≠ []) (kvs_scores (x :: kvs)) →
     Zmset_loop kb sb (x :: kvs) tx = TxOk tx' →
     is_Some (tx' !! sb) ∧
     ∀ k, bucket_of tx' sb !! k =
            match kvs_last k (x :: kvs) with
            | Some s => Some s
            | None => bucket_of tx sb !! k
            end).
Proof.
  intros Hne. induction kvs as [|s rest [IH1 IH2]].
  - split; [intros tx tx' _ Hs _ [= <-]|intros x tx tx' _ Hs _ [= <-]]; done.
  - split; [apply IH2|]. intros key tx tx' Hk Hs Hsc H. simpl in Hsc, H.
    apply Forall_cons in Hsc as [Hs0 Hsc].
    apply bind_TxOk_inv in H as (tx1 & H1 & H).
    apply zset_pair_stored in H1 as (Hk1 & Hs1 & Hkey & Hother); [|done..].
    destruct (IH1 _ _ Hk1 Hs1 Hsc H) as [Hs' Hlook].
    split; [done|]. intros k. rewrite Hlook. simpl kvs_last.
    destruct (kvs_last k rest); [done|].
    case_decide as Hd; [by subst|by apply Hother].
Qed.

(** X25: after a [Zmset] that returned no error, called with non-empty
    scores, [Zget] of every member of the argument list returns the last
    score the list gives for it. *)
Theorem Zmset_Zget (name : string) (kvs : list bytes) (db : store) (k s : bytes) :
  (Zmset name kvs db).2 = Returns err_nil →
  Forall (λ s, s ≠ []) (kvs_scores kvs) →
  kvs_last k kvs = Some s →
  Zget name k (Zmset name kvs db).1 = Returns (mkReply replyOK [s]).
Proof.
  intros Hok Hsc Hlast. revert Hok. unfold Zmset.
  case_decide as Hd; [done|]. unfold Update.
  destruct (create_spec (zetKeyBucket name) db) as (tx1 & -> & Hs1 & Hc1 & Hp1).
  { rewrite zetKeyBucket_eq. discriminate. }
  rewrite bind_TxOk.
  destruct (create_spec (zetScoreBucket name) tx1) as (tx2 & -> & Hs2 & Hc2 & Hp2).
  { rewrite zetScoreBucket_eq. discriminate. }
  rewrite bind_TxOk.
  destruct (Zmset_loop _ _ kvs tx2) as [tx'| |] eqn:E; [|done|done].
  intros _. simpl.
  apply (proj1 (Zmset_loop_stored _ _ kvs (zetKey_ne_zetScore name name)))
    in E as [Hs' Hlook]; [|by apply Hp2|done|done].
  by rewrite Zget_bucket_of, Hlook, Hlast.
Qed.

Lemma Zmset_Zget_witness :
  Zget "s" (S2b "a")
    (Zmset "s" [S2b "a"; I2b 1; S2b "b"; I2b 2; S2b "a"; I2b 3] ∅).1
  = Returns (mkReply replyOK [I2b 3]).
Proof.
  apply (Zmset_Zget "s" [S2b "a"; I2b 1; S2b "b"; I2b 2; S2b "a"; I2b 3] ∅
           (S2b "a") (I2b 3)).
  - by vm_compute.
  - repeat constructor; done.
  - reflexivity.
Defined.
